(** * The lexer driver of the ANTLR 4 C++ runtime

    A shallow embedding of [runtime/Cpp/runtime/Lexer.cpp]: the token
    production loop [Lexer::nextToken], the emission side channel, the mode
    stack, [Lexer::reset], [Lexer::getAllTokens] and the error display.

    Conventions of the embedding.
    - [int] and [size_t] values are integers of [Z] (indices of the cursor are
      [nat]).  Texts are assumed shorter than 2^31 characters, so that the
      casts [(int)] and [(size_t)] of the source are the identity; signed
      overflow, which C++ leaves undefined, is not modelled.
    - [std::wstring] is the list of its [wchar_t] code units.
    - A method is a function on the record [Lexer] of the instance fields.
      A method that can throw, or whose loop can run for ever, returns a
      [Res]: a value and the new state, a C++ exception and the state at the
      throw, undefined behaviour, or the exhaustion of the fuel that bounds
      the calls of the recognition engine.
    - The collaborators whose code is not part of [Lexer.cpp] (cursor, token
      factory, recognition engine, listener dispatch) are modelled by the
      narrow interface the driver uses; the calls the driver makes on them
      are recorded, in order, in the field [calls]. *)

From Stdlib Require Import ZArith List Bool Lia String Ascii DecimalString.
From Stdlib Require Import DecimalZ DecimalPos Sorted.
Import ListNotations.
Local Open Scope Z_scope.

(** ** Wide strings *)

Definition wstring := list Z.

(** The wide literal [L"..."] of an ASCII string. *)
Definition L (s : string) : wstring :=
  map (fun a => Z.of_nat (nat_of_ascii a)) (list_ascii_of_string s).

(** [std::to_wstring(int)]: the decimal digits, with a minus sign when
    negative. *)
Definition to_wstring (c : Z) : wstring :=
  L (NilZero.string_of_int (Z.to_int c)).

Definition wstring_eqb (a b : wstring) : bool :=
  if list_eq_dec Z.eq_dec a b then true else false.

(** ** Constants declared in headers

    [Token::INVALID_TYPE], [Token::DEFAULT_CHANNEL], [EOF], [Lexer::SKIP],
    [Lexer::MORE] and [Lexer::DEFAULT_MODE] are declared in [Token.h],
    [IntStream.h] and [Lexer.h]; [Lexer.cpp] only names them.  They are
    parameters of the development. *)
Class LexerConstants : Type := {
  INVALID_TYPE : Z;
  DEFAULT_CHANNEL : Z;
  EOF : Z;
  SKIP : Z;
  MORE : Z;
  DEFAULT_MODE : Z
}.

(** The values the ANTLR 4 runtimes give these constants. *)
Definition antlr4_constants : LexerConstants :=
  {| INVALID_TYPE := 0; DEFAULT_CHANNEL := 0; EOF := -1;
     SKIP := -3; MORE := -2; DEFAULT_MODE := 0 |}.

(** ** The input cursor *)

(** Modelled from the spec: [CharStream] is declared and implemented outside
    [Lexer.cpp].  The cursor "exposes index/seek/mark/release/peek/consume
    over a character sequence": [data] is the sequence, [p] the index and
    [numMarkers] the number of marks that are not yet released. *)
Record CharStream : Type := {
  data : wstring;
  p : nat;
  numMarkers : nat
}.

Definition index (s : CharStream) : nat := p s.

Definition seek (pos : nat) (s : CharStream) : CharStream :=
  {| data := data s; p := pos; numMarkers := numMarkers s |}.

(** [consume()] moves the cursor one character forward. *)
Definition consume (s : CharStream) : CharStream := seek (S (p s)) s.

(** [mark()] hands out a marker, [release(marker)] gives it back. *)
Definition mark (s : CharStream) : Z * CharStream :=
  (Z.of_nat (numMarkers s),
   {| data := data s; p := p s; numMarkers := S (numMarkers s) |}).

Definition release (marker : Z) (s : CharStream) : CharStream :=
  {| data := data s; p := p s; numMarkers := pred (numMarkers s) |}.

(** [getText(Interval(a, b))]: the characters [a..b], both included, as far
    as the sequence reaches. *)
Definition stream_getText (a b : Z) (s : CharStream) : wstring :=
  if (a <? 0) || (b <? a) then []
  else firstn (Z.to_nat (b - a + 1)) (skipn (Z.to_nat a) (data s)).


(** ** Tokens *)

(** Modelled from the spec: the token factory is pluggable and its code is
    outside [Lexer.cpp]; "given source-pair identity, type, text, channel,
    start/stop offsets, line, column" it "produces a Token value".  A token
    is the record of the arguments of [create]; the source pair, which is
    the same for every token of a driver, is left out. *)
Record Token : Type := {
  tk_type : Z;
  tk_text : wstring;
  tk_channel : Z;
  tk_start : Z;
  tk_stop : Z;
  tk_line : Z;
  tk_column : Z
}.

Definition create (type : Z) (text : wstring) (channel start stop line
  charPositionInLine : Z) : Token :=
  {| tk_type := type; tk_text := text; tk_channel := channel;
     tk_start := start; tk_stop := stop; tk_line := line;
     tk_column := charPositionInLine |}.

(** The field [_token] is a raw pointer: null, pointing to a token, or
    left pointing to a token that was [delete]d. *)
Inductive TokenPtr : Type :=
| NullTok
| LiveTok (t : Token)
| FreedTok.

(** ** The recognition engine *)

(** The position tracking of [LexerATNSimulator] ([getLine],
    [getCharPositionInLine], [setLine], [setCharPositionInLine]). *)
Record Sim : Type := {
  line : Z;
  charPositionInLine : Z
}.

(** The calls a recognition action makes on the driver while [match] runs:
    the mutators that [Lexer.cpp] defines. *)
Inductive Action : Type :=
| ASkip
| AMore
| AMode (m : Z)
| APushMode (m : Z)
| APopMode
| ASetType (ttype : Z)
| ASetChannel (channel : Z)
| ASetText (text : wstring)
| AEmitToken (t : Token)
| ASetLine (l : Z)
| ASetCharPositionInLine (c : Z).

(** What one call of [match(input, mode)] does: it consumes [consumed]
    characters, moves its position tracking to [sim'], and either returns a
    token type after the recognition actions [actions] ran on the driver, or
    throws [LexerNoViableAltException] (actions run on acceptance only). *)
Inductive MatchResult : Type :=
| Accept (consumed : nat) (sim' : Sim) (actions : list Action) (ttype : Z)
| NoViableAlt (consumed : nat) (sim' : Sim).

(** Modelled from the spec: [LexerATNSimulator] is implemented outside
    [Lexer.cpp].  "Given the input cursor and an active mode identifier" it
    "consumes zero or more characters and returns a token-type outcome, or
    signals a no-viable-alternative condition; also tracks current
    line/column over the cursor"; [getText(input)] is its text over the
    cursor span. *)
Class LexerATNSimulator : Type := {
  sim_match : CharStream -> Z -> Sim -> MatchResult;
  sim_getText : Sim -> option CharStream -> wstring;
  (* the position tracking after [consume(input)] took one character *)
  sim_consume : CharStream -> Sim -> Sim;
  (* the position tracking after [reset()] *)
  sim_reset : Sim -> Sim
}.

(** ** Calls on the collaborators, in the order the driver makes them *)
Inductive Call : Type :=
| CallMark (marker : Z)
| CallRelease (marker : Z)
| CallMatch (mode : Z)
| CallSyntaxError (line charPositionInLine : Z) (msg : wstring)
| CallConsume
| CallSimReset.

(** ** The instance fields of [Lexer] *)
Record Lexer : Type := {
  _input : option CharStream;
  _token : TokenPtr;
  _type : Z;
  _channel : Z;
  _tokenStartCharIndex : Z;
  _tokenStartLine : Z;
  _tokenStartCharPositionInLine : Z;
  _text : wstring;
  _hitEOF : bool;
  _mode : Z;
  _modeStack : list Z;
  interp : Sim;
  calls : list Call
}.

Definition set_input v (l : Lexer) : Lexer :=
  {| _input := v; _token := _token l; _type := _type l;
     _channel := _channel l; _tokenStartCharIndex := _tokenStartCharIndex l;
     _tokenStartLine := _tokenStartLine l;
     _tokenStartCharPositionInLine := _tokenStartCharPositionInLine l;
     _text := _text l; _hitEOF := _hitEOF l; _mode := _mode l;
     _modeStack := _modeStack l; interp := interp l; calls := calls l |}.

Definition set_token v (l : Lexer) : Lexer :=
  {| _input := _input l; _token := v; _type := _type l;
     _channel := _channel l; _tokenStartCharIndex := _tokenStartCharIndex l;
     _tokenStartLine := _tokenStartLine l;
     _tokenStartCharPositionInLine := _tokenStartCharPositionInLine l;
     _text := _text l; _hitEOF := _hitEOF l; _mode := _mode l;
     _modeStack := _modeStack l; interp := interp l; calls := calls l |}.

Definition set_type v (l : Lexer) : Lexer :=
  {| _input := _input l; _token := _token l; _type := v;
     _channel := _channel l; _tokenStartCharIndex := _tokenStartCharIndex l;
     _tokenStartLine := _tokenStartLine l;
     _tokenStartCharPositionInLine := _tokenStartCharPositionInLine l;
     _text := _text l; _hitEOF := _hitEOF l; _mode := _mode l;
     _modeStack := _modeStack l; interp := interp l; calls := calls l |}.

Definition set_channel v (l : Lexer) : Lexer :=
  {| _input := _input l; _token := _token l; _type := _type l;
     _channel := v; _tokenStartCharIndex := _tokenStartCharIndex l;
     _tokenStartLine := _tokenStartLine l;
     _tokenStartCharPositionInLine := _tokenStartCharPositionInLine l;
     _text := _text l; _hitEOF := _hitEOF l; _mode := _mode l;
     _modeStack := _modeStack l; interp := interp l; calls := calls l |}.

(** The three start-position fields are always assigned together. *)
Definition set_tokenStart (idx ln col : Z) (l : Lexer) : Lexer :=
  {| _input := _input l; _token := _token l; _type := _type l;
     _channel := _channel l; _tokenStartCharIndex := idx;
     _tokenStartLine := ln;
     _tokenStartCharPositionInLine := col;
     _text := _text l; _hitEOF := _hitEOF l; _mode := _mode l;
     _modeStack := _modeStack l; interp := interp l; calls := calls l |}.

Definition set_text v (l : Lexer) : Lexer :=
  {| _input := _input l; _token := _token l; _type := _type l;
     _channel := _channel l; _tokenStartCharIndex := _tokenStartCharIndex l;
     _tokenStartLine := _tokenStartLine l;
     _tokenStartCharPositionInLine := _tokenStartCharPositionInLine l;
     _text := v; _hitEOF := _hitEOF l; _mode := _mode l;
     _modeStack := _modeStack l; interp := interp l; calls := calls l |}.

Definition set_hitEOF v (l : Lexer) : Lexer :=
  {| _input := _input l; _token := _token l; _type := _type l;
     _channel := _channel l; _tokenStartCharIndex := _tokenStartCharIndex l;
     _tokenStartLine := _tokenStartLine l;
     _tokenStartCharPositionInLine := _tokenStartCharPositionInLine l;
     _text := _text l; _hitEOF := v; _mode := _mode l;
     _modeStack := _modeStack l; interp := interp l; calls := calls l |}.

Definition set_mode v (l : Lexer) : Lexer :=
  {| _input := _input l; _token := _token l; _type := _type l;
     _channel := _channel l; _tokenStartCharIndex := _tokenStartCharIndex l;
     _tokenStartLine := _tokenStartLine l;
     _tokenStartCharPositionInLine := _tokenStartCharPositionInLine l;
     _text := _text l; _hitEOF := _hitEOF l; _mode := v;
     _modeStack := _modeStack l; interp := interp l; calls := calls l |}.

Definition set_modeStack v (l : Lexer) : Lexer :=
  {| _input := _input l; _token := _token l; _type := _type l;
     _channel := _channel l; _tokenStartCharIndex := _tokenStartCharIndex l;
     _tokenStartLine := _tokenStartLine l;
     _tokenStartCharPositionInLine := _tokenStartCharPositionInLine l;
     _text := _text l; _hitEOF := _hitEOF l; _mode := _mode l;
     _modeStack := v; interp := interp l; calls := calls l |}.

Definition set_interp v (l : Lexer) : Lexer :=
  {| _input := _input l; _token := _token l; _type := _type l;
     _channel := _channel l; _tokenStartCharIndex := _tokenStartCharIndex l;
     _tokenStartLine := _tokenStartLine l;
     _tokenStartCharPositionInLine := _tokenStartCharPositionInLine l;
     _text := _text l; _hitEOF := _hitEOF l; _mode := _mode l;
     _modeStack := _modeStack l; interp := v; calls := calls l |}.

(** Record one call on a collaborator. *)
Definition log (c : Call) (l : Lexer) : Lexer :=
  {| _input := _input l; _token := _token l; _type := _type l;
     _channel := _channel l; _tokenStartCharIndex := _tokenStartCharIndex l;
     _tokenStartLine := _tokenStartLine l;
     _tokenStartCharPositionInLine := _tokenStartCharPositionInLine l;
     _text := _text l; _hitEOF := _hitEOF l; _mode := _mode l;
     _modeStack := _modeStack l; interp := interp l;
     calls := calls l ++ [c] |}.

(** ** Results of methods *)

Inductive Exc : Type :=
| IllegalStateException
| EmptyStackException.

Inductive Res (A : Type) : Type :=
| Ret (a : A) (l : Lexer)
| Throw (e : Exc) (l : Lexer)
| Undefined
| OutOfFuel.

Arguments Ret {A} a l.
Arguments Throw {A} e l.
Arguments Undefined {A}.
Arguments OutOfFuel {A}.

Definition bind {A B} (m : Res A) (k : A -> Lexer -> Res B) : Res B :=
  match m with
  | Ret a l => k a l
  | Throw e l => Throw e l
  | Undefined => Undefined
  | OutOfFuel => OutOfFuel
  end.

Notation "x <- m ;; k" := (bind m (fun x => k))
  (at level 61, m at next level, right associativity).

(** What [getErrorDisplay(const std::wstring &)] depends on besides its
    argument: it reads the buffer of the wide string through a [char*]. *)
Class Platform : Type := {
  wchar_size : nat;        (* sizeof(wchar_t) *)
  big_endian : bool;
  char_is_signed : bool
}.

Section Driver.

Context {K : LexerConstants} {E : LexerATNSimulator} {P : Platform}.

(** [LA(1)]: the character under the cursor, [EOF] past the end. *)
Definition LA1 (s : CharStream) : Z := nth (p s) (data s) EOF.

(** ** The error display *)

(** The bytes of one [wchar_t] in memory. *)
Definition wchar_bytes (c : Z) : list Z :=
  let le := map (fun k => (c / 256 ^ Z.of_nat k) mod 256) (seq 0 wchar_size) in
  if big_endian then rev le else le.

(** The buffer [s.c_str()] points to, byte by byte: the code units and the
    terminating zero. *)
Definition c_str_bytes (s : wstring) : list Z :=
  flat_map wchar_bytes (s ++ [0]).

(** The value of a byte read as [char]. *)
Definition char_of_byte (b : Z) : Z :=
  if char_is_signed && (128 <=? b) then b - 256 else b.

(** [Lexer::getErrorDisplay(int c)] *)
Definition getErrorDisplay_int (c : Z) : wstring :=
  if c =? EOF then L "<EOF>"
  else if c =? 10 then L "\n"
  else if c =? 9 then L "\t"
  else if c =? 13 then L "\r"
  else to_wstring c.

(** [Lexer::getErrorDisplay(const std::wstring &s)]: the source casts
    [s.c_str()] to a pointer to [char] and indexes that pointer with [i],
    for each [i] below [s.length()]: it reads the byte [i] of the buffer. *)
Definition getErrorDisplay (s : wstring) : wstring :=
  flat_map (fun b => getErrorDisplay_int (char_of_byte b))
           (firstn (List.length s) (c_str_bytes s)).

(** [Lexer::getCharErrorDisplay] *)
Definition getCharErrorDisplay (c : Z) : wstring :=
  L "'" ++ getErrorDisplay_int c ++ L "'".

(** ** Mode operations *)

(** [Lexer::skip], [Lexer::more], [Lexer::mode] *)
Definition skip (l : Lexer) : Lexer := set_type SKIP l.
Definition more (l : Lexer) : Lexer := set_type MORE l.
Definition mode (m : Z) (l : Lexer) : Lexer := set_mode m l.

(** [Lexer::pushMode]; the debug output is not modelled. *)
Definition pushMode (m : Z) (l : Lexer) : Lexer :=
  mode m (set_modeStack (_modeStack l ++ [_mode l]) l).

(** [Lexer::popMode] *)
Definition popMode (l : Lexer) : Res Z :=
  match _modeStack l with
  | [] => Throw EmptyStackException l
  | _ :: _ =>
      let l1 := mode (last (_modeStack l) 0) l in
      let l2 := set_modeStack (removelast (_modeStack l1)) l1 in
      Ret (_mode l2) l2
  end.

(** ** Accessors *)

Definition getLine (l : Lexer) : Z := line (interp l).
Definition getCharPositionInLine (l : Lexer) : Z :=
  charPositionInLine (interp l).
Definition setLine (n : Z) (l : Lexer) : Lexer :=
  set_interp {| line := n; charPositionInLine := charPositionInLine (interp l) |} l.
Definition setCharPositionInLine (c : Z) (l : Lexer) : Lexer :=
  set_interp {| line := line (interp l); charPositionInLine := c |} l.

(** [Lexer::getCharIndex]: dereferences [_input]. *)
Definition getCharIndex (l : Lexer) : Res Z :=
  match _input l with
  | None => Undefined
  | Some s => Ret (Z.of_nat (index s)) l
  end.

(** [Lexer::getText], [Lexer::setText] *)
Definition getText (l : Lexer) : wstring :=
  if negb (wstring_eqb (_text l) (L "")) then _text l
  else sim_getText (interp l) (_input l).

Definition setText (text : wstring) (l : Lexer) : Lexer := set_text text l.

Definition getToken (l : Lexer) : TokenPtr := _token l.
Definition setToken (t : TokenPtr) (l : Lexer) : Lexer := set_token t l.
Definition setType (ttype : Z) (l : Lexer) : Lexer := set_type ttype l.
Definition getType (l : Lexer) : Z := _type l.
Definition setChannel (channel : Z) (l : Lexer) : Lexer := set_channel channel l.
Definition getChannel (l : Lexer) : Z := _channel l.

(** ** Emission *)

(** [delete _token;]: deleting the null pointer does nothing, deleting a
    token twice is undefined; the field keeps its value. *)
Definition delete_token (l : Lexer) : Res unit :=
  match _token l with
  | NullTok => Ret tt l
  | LiveTok _ => Ret tt (set_token FreedTok l)
  | FreedTok => Undefined
  end.

(** [Lexer::emit(Token *token)] *)
Definition emit_token (token : TokenPtr) (l : Lexer) : Lexer := set_token token l.

(** [Lexer::emit()] *)
Definition emit (l : Lexer) : Res TokenPtr :=
  i <- getCharIndex l ;; fun l =>
  let t := create (_type l) (_text l) (_channel l) (_tokenStartCharIndex l)
                  (i - 1) (_tokenStartLine l) (_tokenStartCharPositionInLine l) in
  Ret (LiveTok t) (emit_token (LiveTok t) l).

(** [Lexer::emitEOF] *)
Definition emitEOF (l : Lexer) : Res TokenPtr :=
  let cpos := getCharPositionInLine l in
  cpos <- match _token l with
          | NullTok => Ret cpos l
          | LiveTok tok =>
              let n := tk_stop tok - tk_start tok + 1 in
              Ret (tk_column tok + n) l
          | FreedTok => Undefined
          end ;; fun l =>
  match _input l with
  | None => Undefined
  | Some s =>
      let eof := create EOF (L "") DEFAULT_CHANNEL (Z.of_nat (index s))
                        (Z.of_nat (index s) - 1) (getLine l) cpos in
      Ret (LiveTok eof) (emit_token (LiveTok eof) l)
  end.

(** ** Reset *)

(** [Lexer::reset] *)
Definition reset (l : Lexer) : Res unit :=
  let l := match _input l with
           | Some s => set_input (Some (seek 0 s)) l
           | None => l
           end in
  _ <- delete_token l ;; fun l =>
  let l := set_type INVALID_TYPE l in
  let l := set_channel DEFAULT_CHANNEL l in
  let l := set_tokenStart (-1) (-1) (-1) l in
  let l := set_text (L "") l in
  let l := set_hitEOF false l in
  let l := set_mode DEFAULT_MODE l in
  let l := set_modeStack [] l in
  Ret tt (log CallSimReset (set_interp (sim_reset (interp l)) l)).

(** ** Recognition failure *)

(** [Lexer::notifyListeners]: one [syntaxError] call on the listener
    dispatch. *)
Definition notifyListeners (l : Lexer) : Res unit :=
  match _input l with
  | None => Undefined
  | Some s =>
      let text := stream_getText (_tokenStartCharIndex l) (Z.of_nat (index s)) s in
      let msg := L "token recognition error at: '" ++ getErrorDisplay text ++ L "'" in
      Ret tt (log (CallSyntaxError (_tokenStartLine l)
                     (_tokenStartCharPositionInLine l) msg) l)
  end.

(** [Lexer::recover(const LexerNoViableAltException &)].  The engine's
    [consume(input)] takes one character from the cursor and moves the
    engine's position tracking over it. *)
Definition recover (l : Lexer) : Res unit :=
  match _input l with
  | None => Undefined
  | Some s =>
      if negb (LA1 s =? EOF) then
        Ret tt (log CallConsume
                  (set_interp (sim_consume s (interp l))
                     (set_input (Some (consume s)) l)))
      else Ret tt l
  end.

(** [Lexer::recover] for a pointer to a [RecognitionException] *)
Definition recover_re (l : Lexer) : Res unit :=
  match _input l with
  | None => Undefined
  | Some s => Ret tt (set_input (Some (consume s)) l)
  end.

(** ** The token production loop *)

(** One recognition action, run on the driver from inside [match]. *)
Definition run_action (a : Action) (l : Lexer) : Res unit :=
  match a with
  | ASkip => Ret tt (skip l)
  | AMore => Ret tt (more l)
  | AMode m => Ret tt (mode m l)
  | APushMode m => Ret tt (pushMode m l)
  | APopMode => _ <- popMode l ;; fun l => Ret tt l
  | ASetType t => Ret tt (setType t l)
  | ASetChannel c => Ret tt (setChannel c l)
  | ASetText s => Ret tt (setText s l)
  | AEmitToken t => Ret tt (emit_token (LiveTok t) l)
  | ASetLine n => Ret tt (setLine n l)
  | ASetCharPositionInLine c => Ret tt (setCharPositionInLine c l)
  end.

Fixpoint run_actions (acts : list Action) (l : Lexer) : Res unit :=
  match acts with
  | [] => Ret tt l
  | a :: acts' => _ <- run_action a l ;; fun l => run_actions acts' l
  end.

(** The cursor after the engine consumed [n] characters. *)
Definition advance (n : nat) (s : CharStream) : CharStream :=
  seek (p s + n) s.

(** The statements of the [do] body after the [try] block: the latch, and
    the adoption of the engine's outcome as [_type]. *)
Definition after_match (ttype : Z) (l : Lexer) : Res unit :=
  match _input l with
  | None => Undefined
  | Some s =>
      let l := if LA1 s =? EOF then set_hitEOF true l else l in
      let l := if _type l =? INVALID_TYPE then set_type ttype l else l in
      Ret tt l
  end.

(** One pass through the body of the [do ... while (_type == MORE)] loop,
    up to the test of [_type]. *)
Definition iteration (l : Lexer) : Res unit :=
  let l := set_type INVALID_TYPE l in
  match _input l with
  | None => Undefined
  | Some s =>
      let l := log (CallMatch (_mode l)) l in
      match sim_match s (_mode l) (interp l) with
      | Accept n sim' acts ttype =>
          let l := set_interp sim' (set_input (Some (advance n s)) l) in
          _ <- run_actions acts l ;; fun l =>
          after_match ttype l
      | NoViableAlt n sim' =>
          let l := set_interp sim' (set_input (Some (advance n s)) l) in
          _ <- notifyListeners l ;; fun l =>
          _ <- recover l ;; fun l =>
          after_match SKIP l
      end
  end.

(** How the [do ... while] loop is left. *)
Inductive LoopExit : Type :=
| Restart      (* goto outerContinue *)
| Fallthrough  (* the condition _type == MORE is false *).

Fixpoint doWhile (fuel : nat) (l : Lexer) : Res LoopExit :=
  match fuel with
  | O => OutOfFuel
  | S fuel' =>
      _ <- iteration l ;; fun l =>
      if _type l =? SKIP then Ret Restart l
      else if _type l =? MORE then doWhile fuel' l
      else Ret Fallthrough l
  end.

(** The statements between [outerContinue:] and the [do] loop. *)
Definition startCandidate (l : Lexer) : Res unit :=
  _ <- delete_token l ;; fun l =>
  let l := set_token NullTok l in
  let l := set_channel DEFAULT_CHANNEL l in
  match _input l with
  | None => Undefined
  | Some s =>
      let l := set_tokenStart (Z.of_nat (index s)) (getLine l)
                              (getCharPositionInLine l) l in
      Ret tt (set_text (L "") l)
  end.

(** The body of [while (true)], entered at [outerContinue:]. *)
Fixpoint nextToken_loop (fuel : nat) (l : Lexer) : Res TokenPtr :=
  match fuel with
  | O => OutOfFuel
  | S fuel' =>
      if _hitEOF l then
        _ <- emitEOF l ;; fun l => Ret (_token l) l
      else
        _ <- startCandidate l ;; fun l =>
        ex <- doWhile fuel' l ;; fun l =>
        match ex with
        | Restart => nextToken_loop fuel' l
        | Fallthrough =>
            _ <- match _token l with
                 | NullTok => emit l
                 | t => Ret t l
                 end ;; fun l =>
            Ret (_token l) l
        end
  end.

(** The destructor of the [finally] object: [_input->release(marker)]. *)
Definition onExit (marker : Z) (l : Lexer) : Res unit :=
  match _input l with
  | None => Undefined
  | Some s =>
      Ret tt (log (CallRelease marker) (set_input (Some (release marker s)) l))
  end.

(** Modelled from the spec: [finally] is defined in [CPPUtils.h]; it gives
    "a scoped acquisition/release pairing": the clean-up runs when the scope
    is left, by [return] or by an exception. *)
Definition finally {A} (cleanUp : Lexer -> Res unit) (body : Res A) : Res A :=
  match body with
  | Ret a l => _ <- cleanUp l ;; fun l => Ret a l
  | Throw e l => _ <- cleanUp l ;; fun l => Throw e l
  | Undefined => Undefined
  | OutOfFuel => OutOfFuel
  end.

(** [Lexer::nextToken] *)
Definition nextToken (fuel : nat) (l : Lexer) : Res TokenPtr :=
  match _input l with
  | None => Throw IllegalStateException l
  | Some s =>
      let (tokenStartMarker, s') := mark s in
      let l := log (CallMark tokenStartMarker) (set_input (Some s') l) in
      finally (onExit tokenStartMarker) (nextToken_loop fuel l)
  end.

(** ** Bulk tokenization *)

(** The [while (t->getType() != EOF)] loop of [Lexer::getAllTokens]; [n]
    bounds the number of tokens, [fuel] each call of [nextToken]. *)
Fixpoint getAllTokens_loop (n fuel : nat) (tokens : list Token) (t : TokenPtr)
  (l : Lexer) : Res (list Token) :=
  match t with
  | LiveTok tok =>
      if negb (tk_type tok =? EOF) then
        match n with
        | O => OutOfFuel
        | S n' =>
            t' <- nextToken fuel l ;; fun l =>
            getAllTokens_loop n' fuel (tokens ++ [tok]) t' l
        end
      else Ret tokens l
  | _ => Undefined
  end.

(** [Lexer::getAllTokens].  The vector holds the pointers [nextToken]
    returned; an element of the list is the token such a pointer pointed to
    when it was returned.  (The next candidate of [nextToken] deletes the
    token that [_token] points to, which is the one returned before: the
    list records which tokens were returned, not whether they still
    exist.) *)
Definition getAllTokens (n fuel : nat) (l : Lexer) : Res (list Token) :=
  t <- nextToken fuel l ;; fun l =>
  getAllTokens_loop n fuel [] t l.

(** ** Vocabulary of the statements *)

(** Pushing the modes [ms] one after the other. *)
Definition pushModes (ms : list Z) (l : Lexer) : Lexer :=
  fold_left (fun l m => pushMode m l) ms l.

(** Popping [n] times; the result is the mode the last pop returned. *)
Fixpoint popModes (n : nat) (l : Lexer) : Res Z :=
  match n with
  | O => Ret (_mode l) l
  | S n' => _ <- popMode l ;; fun l => popModes n' l
  end.

(** The column [emitEOF] gives the end-of-input token. *)
Definition eofColumn (l : Lexer) : Z :=
  match _token l with
  | LiveTok prev => tk_column prev + (tk_stop prev - tk_start prev + 1)
  | _ => getCharPositionInLine l
  end.

(** [final r Q]: if the method ended, by [return] or by an exception, the
    state it ended in satisfies [Q]. *)
Definition final {A} (r : Res A) (Q : Lexer -> Prop) : Prop :=
  match r with
  | Ret _ l' => Q l'
  | Throw _ l' => Q l'
  | Undefined => True
  | OutOfFuel => True
  end.

(** The start position of the candidate. *)
Definition tokenStart (l : Lexer) : Z * Z * Z :=
  (_tokenStartCharIndex l, _tokenStartLine l, _tokenStartCharPositionInLine l).

(** The mutators of the driver assign none of these: the cursor, the
    start position, the latch and the recorded calls; and a token pointer
    that is not dangling stays so. *)
Definition actionFrame (l l' : Lexer) : Prop :=
  _input l' = _input l /\
  tokenStart l' = tokenStart l /\
  _hitEOF l' = _hitEOF l /\
  calls l' = calls l /\
  (_token l <> FreedTok -> _token l' <> FreedTok).

(** The message [notifyListeners] reports when the cursor is [s] and the
    candidate started at index [start]. *)
Definition recognitionErrorMessage (start : Z) (s : CharStream) : wstring :=
  L "token recognition error at: '"
  ++ getErrorDisplay (stream_getText start (Z.of_nat (index s)) s)
  ++ L "'".

(** Calls other than [mark] and [release]. *)
Definition quiet (c : Call) : Prop :=
  match c with
  | CallMark _ | CallRelease _ => False
  | _ => True
  end.

(** Between [l] and [l']: the cursor, if attached, stays attached, over
    the same text, with the same markers, and did not move back; the calls
    recorded in between are neither [mark] nor [release]; a token pointer
    that was not dangling is not dangling. *)
Definition cursorFrame (l l' : Lexer) : Prop :=
  (forall s, _input l = Some s ->
     exists s', _input l' = Some s' /\ data s' = data s /\
                numMarkers s' = numMarkers s /\ (p s <= p s')%nat) /\
  (exists evs, calls l' = calls l ++ evs /\ Forall quiet evs) /\
  (_token l <> FreedTok -> _token l' <> FreedTok).

(** Both properties of one pass of the [do] loop. *)
Definition iterationFrame (l l' : Lexer) : Prop :=
  tokenStart l' = tokenStart l /\ cursorFrame l l'.

(** The state in which a call of a method ended, if it ended. *)
Definition exitState {A} (r : Res A) : option Lexer :=
  match r with
  | Ret _ l' => Some l'
  | Throw _ l' => Some l'
  | Undefined => None
  | OutOfFuel => None
  end.

(** The token [emitEOF] builds in state [l] over the cursor [s]. *)
Definition eofToken (l : Lexer) (s : CharStream) : Token :=
  create EOF (L "") DEFAULT_CHANNEL (Z.of_nat (index s))
         (Z.of_nat (index s) - 1) (getLine l) (eofColumn l).

(** [k + 1] calls of [nextToken] in a row; the result of the last. *)
Fixpoint nextToken_again (k fuel : nat) (l : Lexer) : Res TokenPtr :=
  match k with
  | O => nextToken fuel l
  | S k' => _ <- nextToken fuel l ;; fun l => nextToken_again k' fuel l
  end.

(** The calls recorded by [n] calls of [nextToken] that only mark and
    release the cursor. *)
Definition markReleasePairs (n : nat) (marker : Z) : list Call :=
  List.concat (repeat [CallMark marker; CallRelease marker] n).

(** The value of [_type] after the actions [acts] ran from a state where it
    was [ty]. *)
Fixpoint type_after (acts : list Action) (ty : Z) : Z :=
  match acts with
  | [] => ty
  | ASkip :: acts' => type_after acts' SKIP
  | AMore :: acts' => type_after acts' MORE
  | ASetType t :: acts' => type_after acts' t
  | _ :: acts' => type_after acts' ty
  end.

(** The value of [_type] at the end of a pass of the [do] loop in which
    [match] ran the actions [acts] and returned [ttype]. *)
Definition outcomeType (acts : list Action) (ttype : Z) : Z :=
  let t := type_after acts INVALID_TYPE in
  if t =? INVALID_TYPE then ttype else t.







(** ** Replacing the cursor *)

(** [Lexer::setInputStream].  [delete this->_input] leaves [_input]
    pointing to the deleted stream, and [reset()], which runs before the new
    stream is assigned, calls [seek(0)] through that pointer when it is not
    null: with a cursor attached the call is undefined.  The source pair
    handed to the token factory is not part of the state. *)
Definition setInputStream (input : option CharStream) (l : Lexer) : Res unit :=
  match _input l with
  | Some _ => Undefined
  | None =>
      _ <- reset l ;; fun l =>
      Ret tt (set_input input l)
  end.

(** [Lexer::getInputStream] *)
Definition getInputStream (l : Lexer) : option CharStream := _input l.

(** ** Vocabulary of further statements *)

(** The engine installs no token of its own on the text [text]: no action
    of a match is [emit(token)]. *)
Definition engine_never_emits (text : wstring) : Prop :=
  forall (s : CharStream) (m : Z) (sim : Sim) (n : nat) (sim' : Sim)
         (acts : list Action) (ttype : Z),
    data s = text ->
    sim_match s m sim = Accept n sim' acts ttype ->
    Forall (fun a => forall t : Token, a <> AEmitToken t) acts.


(** Between [l] and [l'], over the text [text], [_token] is not assigned. *)
Definition tokenKept (text : wstring) (l l' : Lexer) : Prop :=
  forall s, _input l = Some s -> data s = text ->
    _token l' = _token l /\
    exists s', _input l' = Some s' /\ data s' = text.

(** Where the token that a call returned lies, given the cursor [s] before
    and [s'] after the call. *)
Definition tokenAt (s s' : CharStream) (t : Token) : Prop :=
  tk_stop t = Z.of_nat (index s') - 1 /\
  Z.of_nat (index s) <= tk_start t /\
  tk_start t <= Z.of_nat (index s').

(** The value of [_channel] after the actions [acts] ran from a state where
    it was [ch]. *)
Fixpoint channel_after (acts : list Action) (ch : Z) : Z :=
  match acts with
  | [] => ch
  | ASetChannel c :: acts' => channel_after acts' c
  | _ :: acts' => channel_after acts' ch
  end.

(** The value of [_text] after the actions [acts] ran from a state where it
    was [tx]. *)
Fixpoint text_after (acts : list Action) (tx : wstring) : wstring :=
  match acts with
  | [] => tx
  | ASetText x :: acts' => text_after acts' x
  | _ :: acts' => text_after acts' tx
  end.

(** ** Construction *)

(** [Lexer::InitializeInstanceFields], for a driver whose cursor is [input]
    and whose engine tracks the position [sim]; [_text] and [_modeStack]
    are default-constructed. *)
Definition InitializeInstanceFields (input : option CharStream) (sim : Sim)
  : Lexer :=
  {| _input := input; _token := NullTok; _type := 0; _channel := 0;
     _tokenStartCharIndex := -1; _tokenStartLine := 0;
     _tokenStartCharPositionInLine := 0; _text := []; _hitEOF := false;
     _mode := DEFAULT_MODE; _modeStack := []; interp := sim; calls := [] |}.

(** [Lexer::Lexer(CharStream *input)] *)
Definition Lexer_of (input : CharStream) (sim : Sim) : Lexer :=
  InitializeInstanceFields (Some input) sim.

End Driver.

(** ** A small grammar to run the driver on

    Letters are tokens of type 1, one per letter; a space is skipped; a
    double quote continues the token ([more]); a closing parenthesis pops
    the mode; at the end of the input the engine returns [EOF]; any other
    character has no viable alternative. *)
Module Demo.

Definition track (c : Z) (sim : Sim) : Sim :=
  if c =? 10 then {| line := line sim + 1; charPositionInLine := 0 |}
  else {| line := line sim; charPositionInLine := charPositionInLine sim + 1 |}.

#[export] Instance constants : LexerConstants := antlr4_constants.

#[export] Instance engine : LexerATNSimulator :=
  {| sim_match := fun s _ sim =>
       let c := LA1 s in
       if c =? EOF then Accept 0 sim [] EOF
       else if (97 <=? c) && (c <=? 122) then Accept 1 (track c sim) [] 1
       else if c =? 32 then Accept 1 (track c sim) [ASkip] 2
       else if c =? 34 then Accept 1 (track c sim) [AMore] 3
       else if c =? 41 then Accept 1 (track c sim) [APopMode] 4
       else NoViableAlt 0 sim;
     sim_getText := fun _ _ => [];
     sim_consume := fun s sim => track (LA1 s) sim;
     sim_reset := fun _ => {| line := 1; charPositionInLine := 0 |} |}.

(** A little-endian machine with a four-byte [wchar_t] and a signed
    [char]. *)
#[export] Instance platform : Platform :=
  {| wchar_size := 4; big_endian := false; char_is_signed := true |}.

Definition stream (text : wstring) : CharStream :=
  {| data := text; p := 0; numMarkers := 0 |}.

(** A driver at the start of [text]. *)
Definition lexer (text : wstring) : Lexer :=
  Lexer_of (stream text) {| line := 1; charPositionInLine := 0 |}.

(** The state a method ended in, [l] if it did not end. *)
Definition stateAfter {A} (r : Res A) (l : Lexer) : Lexer :=
  match r with
  | Ret _ l' => l'
  | Throw _ l' => l'
  | _ => l
  end.

(** A driver whose previous token lies on columns 4 to 6. *)
Definition lexer_after_token : Lexer :=
  set_token (LiveTok (create 1 [] 0 4 6 1 4)) (lexer (L "ab c")).

(** A driver before a double quote, which is continued by [more], and a
    letter. *)
Definition quoted : Lexer := lexer [34; 97].

End Demo.

(** * Properties of the driver *)

Section Properties.

Context {K : LexerConstants} {E : LexerATNSimulator} {P : Platform}.

(** ** The mode stack *)

Lemma popMode_empty (l : Lexer) :
  _modeStack l = [] -> popMode l = Throw EmptyStackException l.
Proof. intros H. unfold popMode. rewrite H. reflexivity. Qed.

Lemma popMode_nonempty (l : Lexer) (st : list Z) (top : Z) :
  _modeStack l = st ++ [top] ->
  popMode l = Ret top (set_modeStack st (mode top l)).
Proof.
  intros H. unfold popMode. rewrite H.
  destruct (st ++ [top]) eqn:Hst.
  - destruct st; discriminate.
  - rewrite <- Hst. cbn [mode set_mode _modeStack _mode set_modeStack].
    rewrite H, <- Hst, last_last, removelast_last. reflexivity.
Qed.

Lemma popMode_after_pushMode (m : Z) (l : Lexer) :
  popMode (pushMode m l) = Ret (_mode l) l.
Proof.
  rewrite (popMode_nonempty (pushMode m l) (_modeStack l) (_mode l))
    by reflexivity.
  destruct l; reflexivity.
Qed.

(** C6.  For every mode [m] and every driver state, whatever its mode stack
    holds, [pushMode(m)] followed at once by [popMode()] returns the mode
    that was current before the push and leaves the driver, its current mode
    and its mode stack included, as it was before the push; and [popMode()]
    on an empty mode stack throws [EmptyStackException]. *)
Theorem pushMode_popMode_restores (m : Z) (l : Lexer) :
  popMode (pushMode m l) = Ret (_mode l) l /\
  (forall l0 : Lexer, _modeStack l0 = [] ->
     popMode l0 = Throw EmptyStackException l0).
Proof.
  split.
  - apply popMode_after_pushMode.
  - exact popMode_empty.
Qed.

(** Nested pushes are undone by as many pops, at any depth. *)
Lemma pushModes_popModes (ms : list Z) (l : Lexer) :
  popModes (List.length ms) (pushModes ms l) = Ret (_mode l) l.
Proof.
  revert l. induction ms as [|m ms IH] using rev_ind; intros l.
  - reflexivity.
  - unfold pushModes. rewrite fold_left_app, length_app, Nat.add_comm.
    cbn [fold_left List.length Nat.add popModes].
    rewrite popMode_after_pushMode. cbn [bind]. apply IH.
Qed.

(** ** Reset *)

(** C7.  From a state whose token pointer is not dangling, [reset()]
    returns, and after it: the cursor, if one is attached, is the old one
    rewound to index 0; [_token] points to no live token; [_type] is
    [Token::INVALID_TYPE]; [_channel] is [Token::DEFAULT_CHANNEL]; the three
    start-position fields are -1; the text override is empty; the
    end-of-input latch is clear; the mode is [DEFAULT_MODE] and the mode
    stack is empty; and the engine's [reset()] was called, once, on its
    position tracking. *)
Theorem reset_postcondition (l : Lexer) :
  _token l <> FreedTok ->
  exists l' : Lexer,
    reset l = Ret tt l' /\
    _input l' = option_map (seek 0) (_input l) /\
    (forall s, _input l' = Some s -> index s = 0%nat) /\
    (forall t, _token l' <> LiveTok t) /\
    _type l' = INVALID_TYPE /\
    _channel l' = DEFAULT_CHANNEL /\
    _tokenStartCharIndex l' = -1 /\
    _tokenStartLine l' = -1 /\
    _tokenStartCharPositionInLine l' = -1 /\
    _text l' = [] /\
    _hitEOF l' = false /\
    _mode l' = DEFAULT_MODE /\
    _modeStack l' = [] /\
    interp l' = sim_reset (interp l) /\
    calls l' = calls l ++ [CallSimReset].
Proof.
  intros Hlive. unfold reset, delete_token.
  destruct l as [inp tok ty ch si sl sc tx he md ms it cs]; cbn in Hlive.
  destruct inp as [s|]; destruct tok as [|t|]; try congruence;
    cbn; eexists; (split; [reflexivity|]); cbn;
    repeat split; try reflexivity; try discriminate;
    intros s0 Hs0; inversion Hs0; reflexivity.
Qed.

(** ** The end-of-input token *)

Lemma emitEOF_eq (l : Lexer) (s : CharStream) :
  _input l = Some s -> _token l <> FreedTok ->
  let eof := create EOF (L "") DEFAULT_CHANNEL (Z.of_nat (index s))
               (Z.of_nat (index s) - 1) (getLine l) (eofColumn l) in
  emitEOF l = Ret (LiveTok eof) (emit_token (LiveTok eof) l).
Proof.
  intros Hin Hlive. unfold emitEOF, eofColumn.
  destruct (_token l) as [|prev|]; try congruence; cbn [bind]; rewrite Hin;
    reflexivity.
Qed.


(** ** The text override *)

Lemma wstring_eqb_true (a b : wstring) : wstring_eqb a b = true <-> a = b.
Proof.
  unfold wstring_eqb. destruct (list_eq_dec Z.eq_dec a b); split;
    congruence.
Qed.

Lemma getText_override (l : Lexer) :
  _text l <> [] -> getText l = _text l.
Proof.
  intros H. unfold getText.
  destruct (wstring_eqb (_text l) (L "")) eqn:Heq; [|reflexivity].
  apply wstring_eqb_true in Heq. contradiction.
Qed.

Lemma getText_no_override (l : Lexer) :
  _text l = [] -> getText l = sim_getText (interp l) (_input l).
Proof.
  intros H. unfold getText. rewrite H. reflexivity.
Qed.

(** C10.  [getText()] returns the stored override exactly when the override
    is a non-empty string, and the engine's text over the cursor otherwise;
    so after [setText] with the empty string [getText()] returns the
    engine's text, and on a driver whose override was never set (it is
    empty) [setText] with the empty string changes nothing at all. *)
Theorem setText_empty_is_no_override (l : Lexer) :
  (forall text : wstring, text <> [] -> getText (setText text l) = text) /\
  getText (setText [] l) = sim_getText (interp l) (_input l) /\
  (_text l = [] -> setText [] l = l /\ getText (setText [] l) = getText l).
Proof.
  split; [|split].
  - intros text Hne. apply (getText_override (setText text l)). exact Hne.
  - apply (getText_no_override (setText [] l)). reflexivity.
  - intros Hnone.
    assert (Hsame : setText [] l = l).
    { unfold setText, set_text. rewrite <- Hnone. destruct l; reflexivity. }
    split; [exact Hsame | rewrite Hsame; reflexivity].
Qed.

(** ** Reasoning about the loops *)

(** Reduce the projections of a state built by the field assignments. *)
Ltac fields :=
  cbn [_input _token _type _channel _tokenStartCharIndex _tokenStartLine
       _tokenStartCharPositionInLine _text _hitEOF _mode _modeStack interp
       calls set_input set_token set_type set_channel set_tokenStart set_text
       set_hitEOF set_mode set_modeStack set_interp log emit_token] in *.

Lemma final_bind {A B} (m : Res A) (k : A -> Lexer -> Res B)
  (Q Q' : Lexer -> Prop) :
  final m Q ->
  (forall l1, Q l1 -> Q' l1) ->
  (forall a l1, Q l1 -> final (k a l1) Q') ->
  final (bind m k) Q'.
Proof.
  intros Hm Himp Hk. destruct m; cbn in *; auto.
Qed.

Lemma final_mono {A} (r : Res A) (Q Q' : Lexer -> Prop) :
  final r Q -> (forall l1, Q l1 -> Q' l1) -> final r Q'.
Proof. intros H Himp. destruct r; cbn in *; auto. Qed.

(** A relation between the state before and the state after that every
    statement of a loop body keeps is kept by the loops. *)
Section LoopRule.

Variable R : Lexer -> Lexer -> Prop.
Hypothesis R_trans : forall l1 l2 l3, R l1 l2 -> R l2 l3 -> R l1 l3.
Hypothesis R_iteration : forall l, final (iteration l) (R l).

Lemma doWhile_rule (fuel : nat) :
  forall l, final (doWhile fuel l) (R l).
Proof.
  induction fuel as [|fuel IH]; intros l; cbn [doWhile]; [exact I|].
  apply final_bind with (Q := R l); auto.
  intros _ l1 H1.
  destruct (_type l1 =? SKIP); [exact H1|].
  destruct (_type l1 =? MORE); [|exact H1].
  eapply final_mono; [apply IH|]. intros l2 H2. eauto.
Qed.

Hypothesis R_startCandidate : forall l, final (startCandidate l) (R l).
Hypothesis R_emit : forall l, final (emit l) (R l).
Hypothesis R_emitEOF : forall l, final (emitEOF l) (R l).

Lemma nextToken_loop_rule (fuel : nat) :
  forall l, final (nextToken_loop fuel l) (R l).
Proof.
  induction fuel as [|fuel IH]; intros l; cbn [nextToken_loop]; [exact I|].
  destruct (_hitEOF l).
  - apply final_bind with (Q := R l); auto.
  - apply final_bind with (Q := R l); auto.
    intros _ l1 H1.
    apply final_bind with (Q := R l).
    + eapply final_mono; [apply doWhile_rule|]. eauto.
    + auto.
    + intros ex l2 H2. destruct ex.
      * eapply final_mono; [apply IH|]. eauto.
      * apply final_bind with (Q := R l); auto.
        destruct (_token l2); cbn; auto.
        eapply final_mono; [apply R_emit|]. eauto.
Qed.

End LoopRule.

(** *** What recognition actions leave alone *)

Lemma actionFrame_refl (l : Lexer) : actionFrame l l.
Proof. unfold actionFrame. auto. Qed.

Lemma actionFrame_trans (l1 l2 l3 : Lexer) :
  actionFrame l1 l2 -> actionFrame l2 l3 -> actionFrame l1 l3.
Proof.
  unfold actionFrame. intros (A1 & A2 & A3 & A4 & A5) (B1 & B2 & B3 & B4 & B5).
  repeat split; try congruence. auto.
Qed.

Lemma run_action_frame (a : Action) (l : Lexer) :
  final (run_action a l) (actionFrame l).
Proof.
  destruct a; cbn; try (unfold actionFrame; cbn; repeat split; auto; discriminate).
  unfold popMode. destruct (_modeStack l); cbn;
    unfold actionFrame; cbn; repeat split; auto.
Qed.

Lemma run_actions_frame (acts : list Action) :
  forall l, final (run_actions acts l) (actionFrame l).
Proof.
  induction acts as [|a acts IH]; intros l; cbn [run_actions].
  - apply actionFrame_refl.
  - apply final_bind with (Q := actionFrame l).
    + apply run_action_frame.
    + auto.
    + intros _ l1 H1. eapply final_mono; [apply IH|].
      intros l2 H2. eapply actionFrame_trans; eauto.
Qed.

(** ** Recognition failure *)

(** The state an iteration ends in when the engine threw
    [LexerNoViableAltException] after consuming [n] characters. *)
Lemma iteration_noViableAlt (l : Lexer) (s : CharStream) (n : nat) (sim' : Sim) :
  _input l = Some s ->
  sim_match s (_mode l) (interp l) = NoViableAlt n sim' ->
  exists l' : Lexer,
    iteration l = Ret tt l' /\
    _type l' = SKIP /\
    _token l' = _token l /\
    tokenStart l' = tokenStart l /\
    let s1 := advance n s in
    let report := CallSyntaxError (_tokenStartLine l)
                    (_tokenStartCharPositionInLine l)
                    (recognitionErrorMessage (_tokenStartCharIndex l) s1) in
    (LA1 s1 = EOF ->
       _input l' = Some s1 /\
       calls l' = calls l ++ [CallMatch (_mode l); report]) /\
    (LA1 s1 <> EOF ->
       _input l' = Some (consume s1) /\
       calls l' = calls l ++ [CallMatch (_mode l); report; CallConsume]).
Proof.
  intros Hin Hm. unfold iteration.
  cbn [_input set_type _mode interp log]. rewrite Hin, Hm.
  unfold notifyListeners. cbn [_input set_interp set_input bind].
  unfold recover. cbn [_input log set_interp set_input bind].
  assert (Hassoc : forall (cs : list Call) a b c,
            ((cs ++ [a]) ++ [b]) ++ [c] = cs ++ [a; b; c]).
  { intros. rewrite <- !app_assoc. reflexivity. }
  destruct (LA1 (advance n s) =? EOF) eqn:Heof; cbn [negb bind].
  - unfold after_match. cbn [_input log set_interp set_input set_type _type].
    rewrite Heof. fields. rewrite Z.eqb_refl. eexists. split; [reflexivity|].
    do 3 (split; [reflexivity|]). cbv zeta. split.
    + intros _. split; [reflexivity|]. fields.
      rewrite <- app_assoc. reflexivity.
    + intros Hne. apply Z.eqb_eq in Heof. contradiction.
  - unfold after_match. cbn [_input log set_interp set_input set_type _type].
    assert (Hne : LA1 (advance n s) <> EOF) by (apply Z.eqb_neq; exact Heof).
    destruct (LA1 (consume (advance n s)) =? EOF); fields;
      rewrite Z.eqb_refl;
      (eexists; split; [reflexivity|]);
      do 3 (split; [reflexivity|]); cbv zeta;
      (split; [intros Heq; contradiction|]);
      intros _; (split; [reflexivity|]); fields;
      apply Hassoc.
Qed.

(** C1.  When the engine throws [LexerNoViableAltException] in a pass of the
    [do] loop, the pass ends normally, and with it the loop, by the jump to
    [outerContinue]: the exception is caught.  The listener dispatch got one
    [syntaxError] call for it; the cursor is one character past the place
    where the engine gave up, or at that place when [LA(1)] is [EOF] there;
    [_type] is [SKIP]; [_token] is untouched, so no token was emitted; and
    [nextToken] goes on with a new candidate from the state reached. *)
Theorem noViableAlt_is_recovered (fuel : nat) (l : Lexer) (s : CharStream)
  (n : nat) (sim' : Sim) :
  _input l = Some s ->
  sim_match s (_mode l) (interp l) = NoViableAlt n sim' ->
  exists l' : Lexer,
    doWhile (S fuel) l = Ret Restart l' /\
    _type l' = SKIP /\
    _token l' = _token l /\
    (let s1 := advance n s in
     let report := CallSyntaxError (_tokenStartLine l)
                     (_tokenStartCharPositionInLine l)
                     (recognitionErrorMessage (_tokenStartCharIndex l) s1) in
     (LA1 s1 = EOF ->
        _input l' = Some s1 /\
        calls l' = calls l ++ [CallMatch (_mode l); report]) /\
     (LA1 s1 <> EOF ->
        _input l' = Some (consume s1) /\
        calls l' = calls l ++ [CallMatch (_mode l); report; CallConsume])) /\
    (forall l0 : Lexer,
       _hitEOF l0 = false -> startCandidate l0 = Ret tt l ->
       nextToken_loop (S (S fuel)) l0 = nextToken_loop (S fuel) l').
Proof.
  intros Hin Hm.
  destruct (iteration_noViableAlt l s n sim' Hin Hm)
    as (l' & Hit & Hty & Htok & _ & Hcalls).
  exists l'.
  assert (Hdo : doWhile (S fuel) l = Ret Restart l').
  { cbn [doWhile]. rewrite Hit. cbn [bind]. rewrite Hty, Z.eqb_refl.
    reflexivity. }
  repeat split; try assumption; try (apply Hcalls; assumption).
  intros l0 Hlatch Hstart.
  change (nextToken_loop (S (S fuel)) l0) with
    (if _hitEOF l0 then _ <- emitEOF l0 ;; fun l => Ret (_token l) l
     else _ <- startCandidate l0 ;; fun l =>
          ex <- doWhile (S fuel) l ;; fun l =>
          match ex with
          | Restart => nextToken_loop (S fuel) l
          | Fallthrough =>
              _ <- match _token l with
                   | NullTok => emit l
                   | t => Ret t l
                   end ;; fun l => Ret (_token l) l
          end).
  rewrite Hlatch, Hstart. cbn [bind]. rewrite Hdo. reflexivity.
Qed.

(** *** What the statements of [nextToken] leave alone *)

Lemma cursorFrame_trans (l1 l2 l3 : Lexer) :
  cursorFrame l1 l2 -> cursorFrame l2 l3 -> cursorFrame l1 l3.
Proof.
  intros (A1 & (ev1 & A2 & A3) & A4) (B1 & (ev2 & B2 & B3) & B4).
  unfold cursorFrame. repeat split; auto.
  - intros s Hs. destruct (A1 s Hs) as (s2 & Hs2 & Hd2 & Hm2 & Hp2).
    destruct (B1 s2 Hs2) as (s3 & Hs3 & Hd3 & Hm3 & Hp3).
    exists s3. repeat split; try congruence. lia.
  - exists (ev1 ++ ev2). split.
    + rewrite B2, A2, app_assoc. reflexivity.
    + apply Forall_app. auto.
Qed.

Lemma actionFrame_cursorFrame (l l' : Lexer) :
  actionFrame l l' -> cursorFrame l l'.
Proof.
  intros (A1 & _ & _ & A4 & A5). unfold cursorFrame. repeat split; auto.
  - intros s Hs. exists s. rewrite A1. auto.
  - exists []. rewrite app_nil_r. auto.
Qed.

(** A state that differs from [l] by a cursor moved forward and by calls
    that are not [mark] or [release]. *)
Lemma cursorFrame_intro (l l' : Lexer) (evs : list Call) :
  (forall s, _input l = Some s ->
     exists s', _input l' = Some s' /\ data s' = data s /\
                numMarkers s' = numMarkers s /\ (p s <= p s')%nat) ->
  calls l' = calls l ++ evs -> Forall quiet evs ->
  (_token l <> FreedTok -> _token l' <> FreedTok) ->
  cursorFrame l l'.
Proof. unfold cursorFrame. eauto 10. Qed.

Lemma after_match_frame (ttype : Z) (l : Lexer) :
  final (after_match ttype l)
        (fun l' => actionFrame (set_hitEOF (_hitEOF l') l) l').
Proof.
  unfold after_match. destruct (_input l) as [s|]; [|exact I].
  destruct (LA1 s =? EOF); fields;
    match goal with |- context [if ?c then _ else _] => destruct c end;
    cbn [final]; unfold actionFrame, tokenStart; fields; auto 10.
Qed.

Lemma iterationFrame_trans (l1 l2 l3 : Lexer) :
  iterationFrame l1 l2 -> iterationFrame l2 l3 -> iterationFrame l1 l3.
Proof.
  intros (A1 & A2) (B1 & B2). split; [congruence|].
  eapply cursorFrame_trans; eauto.
Qed.

Lemma iteration_frame (l : Lexer) :
  final (iteration l) (iterationFrame l).
Proof.
  unfold iteration. fields. destruct (_input l) as [s|] eqn:Hin; [|exact I].
  assert (Hbase : forall n sim',
            iterationFrame l
              (set_interp sim' (set_input (Some (advance n s))
                 (log (CallMatch (_mode l)) (set_type INVALID_TYPE l))))).
  { intros n sim'. split; [reflexivity|].
    apply cursorFrame_intro with (evs := [CallMatch (_mode l)]); fields; auto.
    - intros s0 Hs0. eexists. split; [reflexivity|].
      rewrite Hin in Hs0. inversion Hs0; subst s0. cbn. repeat split; lia.
    - repeat constructor. }
  destruct (sim_match s (_mode l) (interp l)) as [n sim' acts ttype|n sim'].
  - apply final_bind with (Q := iterationFrame l).
    + eapply final_mono; [apply run_actions_frame|].
      intros l1 H1. eapply iterationFrame_trans; [apply Hbase|].
      split; [apply H1 | apply actionFrame_cursorFrame, H1].
    + auto.
    + intros _ l1 H1. eapply final_mono; [apply after_match_frame|].
      intros l2 H2. eapply iterationFrame_trans; [exact H1|].
      split; [apply H2|]. apply actionFrame_cursorFrame in H2.
      destruct H2 as (A1 & A2 & A3). unfold cursorFrame. fields. auto.
  - specialize (Hbase n sim').
    set (l1 := set_interp sim' _) in *.
    unfold notifyListeners. destruct (_input l1) as [s1|] eqn:Hin1; [|exact I].
    cbn [bind]. set (l2 := log _ l1).
    assert (H2 : iterationFrame l l2).
    { eapply iterationFrame_trans; [exact Hbase|]. split; [reflexivity|].
      eapply cursorFrame_intro; [| reflexivity | | auto].
      - intros s0 Hs0. exists s0. auto.
      - repeat constructor. }
    unfold recover. assert (Hin2 : _input l2 = Some s1) by exact Hin1.
    rewrite Hin2.
    destruct (negb (LA1 s1 =? EOF)); cbn [bind];
      (eapply final_mono; [apply after_match_frame|]);
      intros l3 H3; (eapply iterationFrame_trans; [exact H2|]).
    + split; [apply H3|]. apply actionFrame_cursorFrame in H3.
      destruct H3 as (A1 & (evs & A2 & A2') & A3). fields.
      apply cursorFrame_intro with (evs := CallConsume :: evs); auto.
      * intros s0 Hs0. rewrite Hin2 in Hs0. inversion Hs0; subst s0.
        destruct (A1 _ eq_refl) as (s' & ? & ? & ? & ?).
        exists s'. cbn in *. repeat split; auto; lia.
      * rewrite A2. rewrite <- app_assoc. reflexivity.
      * constructor; [exact I | exact A2'].
    + split; [apply H3|]. apply actionFrame_cursorFrame in H3.
      destruct H3 as (A1 & A2 & A3). unfold cursorFrame. fields. auto.
Qed.

Lemma startCandidate_frame (l : Lexer) :
  final (startCandidate l) (cursorFrame l).
Proof.
  unfold startCandidate, delete_token.
  destruct (_token l) eqn:Htok; cbn [bind]; fields; try exact I;
    destruct (_input l) as [s|] eqn:Hin; cbn [final]; try exact I;
    (apply cursorFrame_intro with (evs := []); fields;
     [ intros s0 Hs0; exists s0; auto
     | rewrite app_nil_r; reflexivity
     | constructor
     | discriminate ]).
Qed.

Lemma emit_frame (l : Lexer) : final (emit l) (cursorFrame l).
Proof.
  unfold emit, getCharIndex. destruct (_input l) as [s|] eqn:Hin; [|exact I].
  cbn [bind final].
  apply cursorFrame_intro with (evs := []); fields.
  - intros s0 Hs0. exists s0. auto.
  - rewrite app_nil_r. reflexivity.
  - constructor.
  - discriminate.
Qed.

Lemma emitEOF_frame (l : Lexer) : final (emitEOF l) (cursorFrame l).
Proof.
  unfold emitEOF.
  destruct (_token l); cbn [bind]; try exact I;
    destruct (_input l) as [s|] eqn:Hin; cbn [final]; try exact I;
    (apply cursorFrame_intro with (evs := []); fields;
     [ intros s0 Hs0; exists s0; auto
     | rewrite app_nil_r; reflexivity
     | constructor
     | discriminate ]).
Qed.

Lemma iteration_cursorFrame (l : Lexer) :
  final (iteration l) (cursorFrame l).
Proof.
  eapply final_mono; [apply iteration_frame|]. intros l1 H. apply H.
Qed.

Lemma nextToken_loop_frame (fuel : nat) (l : Lexer) :
  final (nextToken_loop fuel l) (cursorFrame l).
Proof.
  apply (nextToken_loop_rule cursorFrame).
  - apply cursorFrame_trans.
  - apply iteration_cursorFrame.
  - apply startCandidate_frame.
  - apply emit_frame.
  - apply emitEOF_frame.
Qed.

Lemma doWhile_frame (fuel : nat) (l : Lexer) :
  final (doWhile fuel l) (iterationFrame l).
Proof.
  apply (doWhile_rule iterationFrame).
  - apply iterationFrame_trans.
  - apply iteration_frame.
Qed.

(** ** The mark on the cursor *)

(** C4.  A call of [nextToken()] with a cursor attached that ends, by
    returning a token or by an exception that leaves the call, made exactly
    one [mark()] call, first, and exactly one [release()] call, last and with
    the marker that [mark()] returned; no call in between was a [mark] or a
    [release], and the cursor holds as many markers as before. *)
Theorem nextToken_mark_release (fuel : nat) (l l' : Lexer) (s : CharStream) :
  _input l = Some s ->
  exitState (nextToken fuel l) = Some l' ->
  exists (marker : Z) (evs : list Call) (s' : CharStream),
    marker = fst (mark s) /\
    calls l' = calls l ++ [CallMark marker] ++ evs ++ [CallRelease marker] /\
    Forall quiet evs /\
    _input l' = Some s' /\
    numMarkers s' = numMarkers s.
Proof.
  intros Hin Hexit. unfold nextToken in Hexit. rewrite Hin in Hexit.
  cbn [mark] in Hexit.
  set (m := Z.of_nat (numMarkers s)) in *.
  set (l1 := log (CallMark m) _) in *.
  pose proof (nextToken_loop_frame fuel l1) as Hframe.
  assert (Hpost : forall l2, cursorFrame l1 l2 ->
            exists l3 evs s',
              onExit m l2 = Ret tt l3 /\
              calls l3 = calls l ++ [CallMark m] ++ evs ++ [CallRelease m] /\
              Forall quiet evs /\
              _input l3 = Some s' /\ numMarkers s' = numMarkers s).
  { intros l2 (A1 & (evs & A2 & A3) & _).
    destruct (A1 _ eq_refl) as (s2 & Hs2 & _ & Hm2 & _).
    unfold onExit. rewrite Hs2. eexists. exists evs. eexists.
    split; [reflexivity|]. fields.
    split; [|split; [exact A3|split; [reflexivity|]]].
    - rewrite A2. subst l1. fields. rewrite <- !app_assoc. reflexivity.
    - cbn. rewrite Hm2. reflexivity. }
  exists m.
  destruct (nextToken_loop fuel l1) as [t l2|e l2| |];
    cbn [finally exitState final] in *; try discriminate;
    destruct (Hpost l2 Hframe) as (l3 & evs & s' & Hrel & ?);
    rewrite Hrel in Hexit; cbn [bind exitState] in Hexit;
    inversion Hexit; subst l';
    exists evs, s'; (split; [reflexivity|assumption]).
Qed.

(** ** Continuation with [more] *)

Lemma startCandidate_eq (l : Lexer) (s : CharStream) :
  _input l = Some s -> _token l <> FreedTok ->
  startCandidate l =
    Ret tt (set_text (L "")
              (set_tokenStart (Z.of_nat (index s)) (getLine l)
                 (getCharPositionInLine l)
                 (set_channel DEFAULT_CHANNEL (set_token NullTok l)))).
Proof.
  intros Hin Hlive. unfold startCandidate, delete_token.
  destruct (_token l) eqn:Htok; try congruence; cbn [bind]; fields;
    rewrite Hin; reflexivity.
Qed.

Lemma startCandidate_tokenStart (l l1 : Lexer) (s : CharStream) :
  _input l = Some s -> startCandidate l = Ret tt l1 ->
  tokenStart l1 = (Z.of_nat (index s), getLine l, getCharPositionInLine l).
Proof.
  intros Hin Hs.
  destruct (_token l) eqn:Htok.
  - rewrite (startCandidate_eq l s Hin) in Hs by congruence.
    inversion Hs. reflexivity.
  - rewrite (startCandidate_eq l s Hin) in Hs by congruence.
    inversion Hs. reflexivity.
  - unfold startCandidate, delete_token in Hs. rewrite Htok in Hs.
    discriminate.
Qed.

(** C5.  In a candidate that starts with the cursor at [s], the
    statements before the [do] loop set the start index, line and column to
    the cursor's index and the engine's line and column; every pass of the
    loop leaves the three fields as they are, so they still hold these
    values when the loop is left after any number of [MORE] continuations;
    and the token [emit()] then builds, which is the token [nextToken]
    returns unless an action installed one, starts at that index, line and
    column. *)
Theorem more_keeps_token_start (fuel : nat) (l0 l1 l2 : Lexer) (s : CharStream) :
  _input l0 = Some s ->
  startCandidate l0 = Ret tt l1 ->
  doWhile fuel l1 = Ret Fallthrough l2 ->
  tokenStart l1 = (Z.of_nat (index s), getLine l0, getCharPositionInLine l0) /\
  (forall l l' : Lexer, iteration l = Ret tt l' -> tokenStart l' = tokenStart l) /\
  tokenStart l2 = tokenStart l1 /\
  exists (t : Token) (l3 : Lexer),
    emit l2 = Ret (LiveTok t) l3 /\
    (_hitEOF l0 = false -> _token l2 = NullTok ->
       nextToken_loop (S fuel) l0 = Ret (LiveTok t) l3) /\
    tk_start t = Z.of_nat (index s) /\
    tk_line t = getLine l0 /\
    tk_column t = getCharPositionInLine l0.
Proof.
  intros Hin Hstart Hloop.
  pose proof (startCandidate_tokenStart l0 l1 s Hin Hstart) as H1.
  pose proof (doWhile_frame fuel l1) as H2. rewrite Hloop in H2.
  destruct H2 as (H2 & Hcur & _). cbn [final] in *.
  pose proof (startCandidate_frame l0) as H0. rewrite Hstart in H0.
  destruct H0 as (H0 & _). destruct (H0 s Hin) as (s1 & Hs1 & _).
  destruct (Hcur s1 Hs1) as (s2 & Hs2 & _).
  split; [exact H1|]. split; [|split; [exact H2|]].
  - intros l l' Hit. pose proof (iteration_frame l) as Hf.
    rewrite Hit in Hf. apply Hf.
  - assert (Hemit : emit l2 =
      Ret (LiveTok (create (_type l2) (_text l2) (_channel l2)
                      (_tokenStartCharIndex l2) (Z.of_nat (index s2) - 1)
                      (_tokenStartLine l2) (_tokenStartCharPositionInLine l2)))
          (emit_token
             (LiveTok (create (_type l2) (_text l2) (_channel l2)
                      (_tokenStartCharIndex l2) (Z.of_nat (index s2) - 1)
                      (_tokenStartLine l2) (_tokenStartCharPositionInLine l2)))
             l2)).
    { unfold emit, getCharIndex. rewrite Hs2. reflexivity. }
    eexists. eexists. split; [exact Hemit|]. split.
    { intros Hlatch Htok. cbn [nextToken_loop].
      rewrite Hlatch, Hstart. cbn [bind]. rewrite Hloop. cbn [bind].
      rewrite Htok, Hemit. reflexivity. }
    rewrite H1 in H2. unfold tokenStart in H2. inversion H2.
    cbn [create tk_start tk_line tk_column]. auto.
Qed.

(** ** After the end of the input *)

Lemma release_mark (s : CharStream) :
  release (fst (mark s)) (snd (mark s)) = s.
Proof. destruct s; reflexivity. Qed.

(** One call with the latch set. *)
Lemma nextToken_latched (fuel : nat) (l : Lexer) (s : CharStream) :
  _hitEOF l = true -> _input l = Some s -> _token l <> FreedTok ->
  exists l1 : Lexer,
    nextToken (S fuel) l = Ret (LiveTok (eofToken l s)) l1 /\
    _hitEOF l1 = true /\ _input l1 = Some s /\
    _token l1 = LiveTok (eofToken l s) /\ interp l1 = interp l /\
    calls l1 = calls l ++ [CallMark (fst (mark s)); CallRelease (fst (mark s))].
Proof.
  intros Hlatch Hin Hlive. unfold nextToken. rewrite Hin.
  cbn [mark]. cbn [nextToken_loop]. fields. rewrite Hlatch.
  set (m := Z.of_nat (numMarkers s)).
  set (s' := {| data := data s; p := p s; numMarkers := S (numMarkers s) |}).
  set (l0 := log (CallMark m) (set_input (Some s') l)).
  assert (He : emitEOF l0 =
            Ret (LiveTok (eofToken l s)) (emit_token (LiveTok (eofToken l s)) l0)).
  { apply (emitEOF_eq l0 s'); [reflexivity | exact Hlive]. }
  rewrite He. cbn [bind finally]. unfold onExit. subst l0. fields.
  cbn [bind].
  eexists. split; [reflexivity|]. fields.
  repeat split; auto.
  - f_equal. exact (release_mark s).
  - rewrite <- app_assoc. reflexivity.
Qed.

(** The end-of-input token built after an end-of-input token is the same
    token: its span is empty. *)
Lemma eofToken_again (l l1 : Lexer) (s : CharStream) :
  _token l1 = LiveTok (eofToken l s) -> interp l1 = interp l ->
  eofToken l1 s = eofToken l s.
Proof.
  intros Htok Hsim. unfold eofToken at 1. unfold eofColumn, getLine.
  rewrite Htok, Hsim. unfold eofToken, create.
  cbn [tk_column tk_stop tk_start]. f_equal. lia.
Qed.

(** C3.  Once the latch [_hitEOF] is set (cursor attached, token pointer
    not dangling), a call of [nextToken()] returns the end-of-input token
    that [emitEOF] builds, whatever fuel it is given, and so does every
    further call: [k + 1] calls in a row all return that same token (type,
    text, channel, start, stop, line and column).  The only calls on the
    collaborators are the [mark] and [release] of each [nextToken]: the
    engine's [match] is not called. *)
Theorem nextToken_after_eof (k fuel : nat) (l : Lexer) (s : CharStream) :
  _hitEOF l = true ->
  _input l = Some s ->
  _token l <> FreedTok ->
  exists l' : Lexer,
    nextToken_again k (S fuel) l = Ret (LiveTok (eofToken l s)) l' /\
    tk_type (eofToken l s) = EOF /\
    calls l' = calls l ++ markReleasePairs (S k) (fst (mark s)) /\
    _hitEOF l' = true.
Proof.
  revert l. induction k as [|k IH]; intros l Hlatch Hin Hlive.
  - destruct (nextToken_latched fuel l s Hlatch Hin Hlive)
      as (l1 & Hcall & Hl1 & _ & _ & _ & Hcalls).
    exists l1. cbn [nextToken_again]. repeat split; auto.
  - destruct (nextToken_latched fuel l s Hlatch Hin Hlive)
      as (l1 & Hcall & Hl1 & Hin1 & Htok1 & Hsim1 & Hcalls).
    assert (Hlive1 : _token l1 <> FreedTok) by (rewrite Htok1; discriminate).
    destruct (IH l1 Hl1 Hin1 Hlive1) as (l' & Hagain & _ & Hcalls' & Hl').
    exists l'. cbn [nextToken_again]. rewrite Hcall. cbn [bind].
    rewrite (eofToken_again l l1 s Htok1 Hsim1) in Hagain.
    repeat split; auto.
    rewrite Hcalls', Hcalls, <- app_assoc. reflexivity.
Qed.

(** ** The error display *)

(** What [getErrorDisplay(int)] gives one character. *)
Lemma getErrorDisplay_int_cases (c : Z) :
  EOF < 0 ->
  getErrorDisplay_int EOF = L "<EOF>" /\
  getErrorDisplay_int 10 = L "\n" /\
  getErrorDisplay_int 9 = L "\t" /\
  getErrorDisplay_int 13 = L "\r" /\
  (c <> EOF -> c <> 10 -> c <> 9 -> c <> 13 ->
   getErrorDisplay_int c = to_wstring c).
Proof.
  intros Heof. unfold getErrorDisplay_int. rewrite Z.eqb_refl.
  replace (10 =? EOF) with false by (symmetry; apply Z.eqb_neq; lia).
  replace (9 =? EOF) with false by (symmetry; apply Z.eqb_neq; lia).
  replace (13 =? EOF) with false by (symmetry; apply Z.eqb_neq; lia).
  repeat (split; [reflexivity|]).
  intros H1 H2 H3 H4.
  apply Z.eqb_neq in H1, H2, H3, H4. rewrite H1, H2, H3, H4. reflexivity.
Qed.

(** Every byte of the letter [a] in memory is 97 or 0. *)
Lemma wchar_bytes_a : Forall (fun b => b = 0 \/ b = 97) (wchar_bytes 97).
Proof.
  assert (Hle : Forall (fun b => b = 0 \/ b = 97)
                  (map (fun k => (97 / 256 ^ Z.of_nat k) mod 256)
                       (seq 0 wchar_size))).
  { apply Forall_map, Forall_forall. intros k _.
    destruct k as [|k].
    - right. reflexivity.
    - left. rewrite Z.div_small; [reflexivity|].
      split; [lia|].
      assert (256 ^ 1 <= 256 ^ Z.of_nat (S k))
        by (apply Z.pow_le_mono_r; lia).
      lia. }
  unfold wchar_bytes. destruct big_endian; [apply Forall_rev|]; exact Hle.
Qed.

Lemma wchar_bytes_length (c : Z) : List.length (wchar_bytes c) = wchar_size.
Proof.
  unfold wchar_bytes.
  destruct big_endian; rewrite ?length_rev, length_map, length_seq; reflexivity.
Qed.

(** The two bytes the display of a two-character text starting with [a]
    reads both belong to the [a]. *)
Lemma getErrorDisplay_a_newline_bytes :
  (2 <= wchar_size)%nat ->
  exists b0 b1 : Z,
    (b0 = 0 \/ b0 = 97) /\ (b1 = 0 \/ b1 = 97) /\
    getErrorDisplay [97; 10] =
      getErrorDisplay_int b0 ++ getErrorDisplay_int b1.
Proof.
  intros Hw. unfold getErrorDisplay, c_str_bytes.
  cbn [List.length app flat_map].
  pose proof wchar_bytes_a as Hall.
  pose proof (wchar_bytes_length 97) as Hlen.
  destruct (wchar_bytes 97) as [|b0 [|b1 rest]]; cbn [List.length] in Hlen;
    try lia.
  inversion Hall as [|? ? H0 Hall']; subst.
  inversion Hall' as [|? ? H1 _]; subst.
  exists b0, b1. split; [exact H0|]. split; [exact H1|].
  cbn [app firstn flat_map].
  assert (Hchar : forall b, b = 0 \/ b = 97 -> char_of_byte b = b).
  { intros b [-> | ->]; unfold char_of_byte;
      rewrite andb_false_r; reflexivity. }
  rewrite (Hchar b0 H0), (Hchar b1 H1), app_nil_r. reflexivity.
Qed.

(** C9.  The display of a text is not the character-by-character rendering
    that [getErrorDisplay(int)] defines.  For the text made of the letter
    [a] and a newline, that rendering is the code 97 followed by the escape
    of the newline; on every platform whose [wchar_t] takes two bytes or
    more, [getErrorDisplay] of this text gives something else: it renders
    two bytes of the letter and never reads the newline. *)
Theorem getErrorDisplay_reads_bytes :
  EOF < 0 ->
  (2 <= wchar_size)%nat ->
  flat_map getErrorDisplay_int [97; 10] = L "97\n" /\
  getErrorDisplay [97; 10] <> L "97\n".
Proof.
  intros Heof Hw. split.
  - destruct (getErrorDisplay_int_cases 97 Heof) as (_ & Hnl & _ & _ & Hother).
    cbn [flat_map]. rewrite Hnl, Hother by lia. reflexivity.
  - destruct (getErrorDisplay_a_newline_bytes Hw)
      as (b0 & b1 & H0 & H1 & Heq).
    rewrite Heq.
    destruct (getErrorDisplay_int_cases 0 Heof) as (_ & _ & _ & _ & Hzero).
    destruct (getErrorDisplay_int_cases 97 Heof) as (_ & _ & _ & _ & Ha).
    destruct H0 as [-> | ->], H1 as [-> | ->];
      rewrite ?Hzero, ?Ha by lia; vm_compute; discriminate.
Qed.

(** ** Termination of the loops *)



Lemma LA1_same (s s' : CharStream) :
  data s' = data s -> p s' = p s -> LA1 s' = LA1 s.
Proof. intros Hd Hp. unfold LA1. rewrite Hd, Hp. reflexivity. Qed.

Lemma after_match_eq (ttype : Z) (l : Lexer) (s : CharStream) :
  _input l = Some s ->
  exists l' : Lexer,
    after_match ttype l = Ret tt l' /\
    actionFrame (set_hitEOF (_hitEOF l') l) l' /\
    _token l' = _token l /\
    _hitEOF l' = (LA1 s =? EOF) || _hitEOF l /\
    _type l' = (if _type l =? INVALID_TYPE then ttype else _type l).
Proof.
  intros Hin. unfold after_match. rewrite Hin.
  destruct (LA1 s =? EOF); fields;
    destruct (_type l =? INVALID_TYPE) eqn:Hty;
    (eexists; split; [reflexivity|]); fields;
    unfold actionFrame, tokenStart; fields; auto 10.
Qed.












(** ** Bulk tokenization *)


(** *** More fuel does not change a result *)









(** ** More on the mode stack *)

(** X1.  Popping once more than the mode stack is deep throws
    [EmptyStackException]; by then the pops that succeeded emptied the stack
    and made the bottom entry the current mode (the current mode is kept when
    the stack was empty from the start). *)
Theorem popModes_underflow (l : Lexer) :
  exists l' : Lexer,
    popModes (S (List.length (_modeStack l))) l = Throw EmptyStackException l' /\
    _modeStack l' = [] /\
    _mode l' = hd (_mode l) (_modeStack l).
Proof.
  remember (_modeStack l) as st eqn:Hst. revert l Hst.
  induction st as [|top st IH] using rev_ind; intros l Hst.
  - exists l. cbn [List.length popModes]. rewrite popMode_empty by auto.
    auto.
  - rewrite length_app, Nat.add_comm. cbn [List.length Nat.add].
    change (popModes (S (S (List.length st))) l)
      with (_ <- popMode l ;; fun l => popModes (S (List.length st)) l).
    rewrite (popMode_nonempty l st top) by auto. cbn [bind].
    destruct (IH (set_modeStack st (mode top l)) eq_refl) as (l' & Hpop & Hstack & Hmode).
    exists l'. split; [exact Hpop|]. split; [exact Hstack|].
    rewrite Hmode. destruct st; reflexivity.
Qed.

(** X2.  A direct [mode(b)] between a push and its pop is forgotten: the pop
    restores the mode that was current before the push. *)
Theorem popMode_forgets_mode (a b : Z) (l : Lexer) :
  popMode (mode b (pushMode a l)) = Ret (_mode l) l.
Proof.
  rewrite (popMode_nonempty (mode b (pushMode a l)) (_modeStack l) (_mode l))
    by reflexivity.
  destruct l; reflexivity.
Qed.

(** ** Without a cursor *)

(** X3.  With no cursor attached, [nextToken()] and [getAllTokens()] throw
    [IllegalStateException] whatever bounds they are given; the driver is
    left as it was: no mark is taken and the engine is not called. *)
Theorem no_cursor_is_illegal_state (n fuel : nat) (l : Lexer) :
  _input l = None ->
  nextToken fuel l = Throw IllegalStateException l /\
  getAllTokens n fuel l = Throw IllegalStateException l.
Proof.
  intros Hnone. unfold getAllTokens, nextToken. rewrite Hnone. auto.
Qed.

(** ** A second delete *)

(** X4.  [reset()] deletes the current token and leaves [_token] pointing to
    it: after a [reset()] that found a token, a second [reset()] and a
    [nextToken()] both delete that token again, which is undefined. *)
Theorem reset_leaves_token_dangling (l : Lexer) (s : CharStream) (t : Token) :
  _input l = Some s ->
  _token l = LiveTok t ->
  exists l' : Lexer,
    reset l = Ret tt l' /\
    _token l' = FreedTok /\
    reset l' = Undefined /\
    (forall fuel : nat, nextToken (S fuel) l' = Undefined) /\
    (forall n fuel : nat, getAllTokens n (S fuel) l' = Undefined).
Proof.
  intros Hin Htok.
  assert (Hreset : exists l' : Lexer,
            reset l = Ret tt l' /\ _token l' = FreedTok /\
            _input l' = Some (seek 0 s) /\ _hitEOF l' = false).
  { unfold reset. rewrite Hin. unfold delete_token. fields. rewrite Htok.
    cbn [bind]. eexists. split; [reflexivity|]. fields. auto. }
  destruct Hreset as (l' & Hreset & Htok' & Hin' & Hlatch').
  assert (Hnext : forall fuel, nextToken (S fuel) l' = Undefined).
  { intros fuel. unfold nextToken. rewrite Hin'. cbn [mark nextToken_loop].
    fields. rewrite Hlatch'. unfold startCandidate, delete_token. fields.
    rewrite Htok'. reflexivity. }
  exists l'. split; [exact Hreset|]. split; [exact Htok'|].
  split; [|split; [exact Hnext|]].
  - unfold reset. rewrite Hin'. unfold delete_token. fields. rewrite Htok'.
    reflexivity.
  - intros n fuel. unfold getAllTokens. rewrite Hnext. reflexivity.
Qed.

(** ** Replacing the cursor *)

(** X5.  On a driver without a cursor (token pointer not dangling),
    [setInputStream(input)] returns with the driver reset and [input]
    attached as it was handed over: the new cursor is not rewound.  On a
    driver with a cursor the call is undefined, because [reset()] seeks the
    stream that was just deleted. *)
Theorem setInputStream_attaches (input : CharStream) (l : Lexer) :
  _token l <> FreedTok ->
  (_input l = None ->
   exists l' : Lexer,
     setInputStream (Some input) l = Ret tt l' /\
     getInputStream l' = Some input /\
     _type l' = INVALID_TYPE /\ _channel l' = DEFAULT_CHANNEL /\
     _text l' = [] /\ _hitEOF l' = false /\
     _mode l' = DEFAULT_MODE /\ _modeStack l' = [] /\
     (forall t, _token l' <> LiveTok t)) /\
  (_input l <> None -> setInputStream (Some input) l = Undefined).
Proof.
  intros Hlive. split.
  - intros Hnone. unfold setInputStream. rewrite Hnone.
    unfold reset, delete_token. rewrite Hnone.
    destruct (_token l) as [|t|] eqn:Htok; [| |contradiction];
      cbn [bind]; fields; eexists; (split; [reflexivity|]); fields;
      repeat split; try reflexivity; try discriminate;
      rewrite Htok; discriminate.
  - intros Hsome. unfold setInputStream.
    destruct (_input l); [reflexivity | contradiction].
Qed.

(** ** Tokenizing again *)

(** X6.  Once the latch is set (cursor attached, token pointer not dangling),
    [getAllTokens()] returns the empty sequence, whatever bounds it is
    given: after the end of the input was reached, tokenizing again without
    a [reset()] gives nothing. *)
Theorem getAllTokens_after_eof (n fuel : nat) (l : Lexer) (s : CharStream) :
  _hitEOF l = true ->
  _input l = Some s ->
  _token l <> FreedTok ->
  exists l' : Lexer,
    getAllTokens n (S fuel) l = Ret [] l' /\
    _token l' = LiveTok (eofToken l s) /\
    _hitEOF l' = true.
Proof.
  intros Hlatch Hin Hlive.
  destruct (nextToken_latched fuel l s Hlatch Hin Hlive)
    as (l1 & Hcall & Hl1 & _ & Htok & _).
  exists l1. unfold getAllTokens. rewrite Hcall. cbn [bind].
  assert (Heof : (tk_type (eofToken l s) =? EOF) = true) by apply Z.eqb_refl.
  destruct n; cbn [getAllTokens_loop]; rewrite Heof; cbn [negb]; auto.
Qed.


(** ** More on the error display *)

Lemma L_inj (a b : string) : L a = L b -> a = b.
Proof.
  unfold L. intros H.
  rewrite <- (string_of_list_ascii_of_string a),
          <- (string_of_list_ascii_of_string b).
  f_equal. revert H.
  generalize (list_ascii_of_string a) (list_ascii_of_string b).
  induction l as [|x xs IH]; intros [|y ys] H; cbn in H; try discriminate;
    [reflexivity|].
  inversion H as [[Hx Hxs]]. f_equal; [|auto].
  apply Nat2Z.inj in Hx.
  rewrite <- (ascii_nat_embedding x), <- (ascii_nat_embedding y), Hx.
  reflexivity.
Qed.

(** The decimal string [std::to_wstring] gives an [int] reads back as that
    [int]. *)
Lemma to_wstring_parses (c : Z) :
  exists str : string,
    to_wstring c = L str /\
    NilZero.int_of_string str = Some (Z.to_int c).
Proof.
  exists (NilZero.string_of_int (Z.to_int c)). split; [reflexivity|].
  apply NilZero.isi; destruct c; cbn; try discriminate;
    intros H; inversion H as [Hnil];
    apply (f_equal Pos.of_uint) in Hnil;
    rewrite DecimalPos.Unsigned.of_to in Hnil; discriminate.
Qed.

Lemma to_wstring_inj (c1 c2 : Z) : to_wstring c1 = to_wstring c2 -> c1 = c2.
Proof.
  intros H.
  destruct (to_wstring_parses c1) as (s1 & H1 & P1).
  destruct (to_wstring_parses c2) as (s2 & H2 & P2).
  rewrite H1, H2 in H. apply L_inj in H. subst s2.
  rewrite P1 in P2. inversion P2 as [Hint].
  apply DecimalZ.to_int_inj. exact Hint.
Qed.

(** No decimal string is one of the four fixed displays. *)
Lemma to_wstring_not_escape (c : Z) (str : string) :
  NilZero.int_of_string str = None -> to_wstring c <> L str.
Proof.
  intros Hnone Heq.
  destruct (to_wstring_parses c) as (s1 & H1 & P1).
  rewrite H1 in Heq. apply L_inj in Heq. subst s1. congruence.
Qed.

Lemma getErrorDisplay_int_injective (c1 c2 : Z) :
  EOF <> 10 -> EOF <> 9 -> EOF <> 13 ->
  getErrorDisplay_int c1 = getErrorDisplay_int c2 -> c1 = c2.
Proof.
  intros E10 E9 E13. unfold getErrorDisplay_int.
  assert (N1 : forall c, to_wstring c <> L "<EOF>")
    by (intros c; apply to_wstring_not_escape; reflexivity).
  assert (N2 : forall c, to_wstring c <> L "\n")
    by (intros c; apply to_wstring_not_escape; reflexivity).
  assert (N3 : forall c, to_wstring c <> L "\t")
    by (intros c; apply to_wstring_not_escape; reflexivity).
  assert (N4 : forall c, to_wstring c <> L "\r")
    by (intros c; apply to_wstring_not_escape; reflexivity).
  destruct (Z.eqb_spec c1 EOF), (Z.eqb_spec c1 10), (Z.eqb_spec c1 9),
           (Z.eqb_spec c1 13), (Z.eqb_spec c2 EOF), (Z.eqb_spec c2 10),
           (Z.eqb_spec c2 9), (Z.eqb_spec c2 13);
    intros H; try congruence;
    try (apply to_wstring_inj; exact H);
    try (exfalso; vm_compute in H; discriminate);
    exfalso;
    first [ eapply N1; eassumption | eapply N2; eassumption
          | eapply N3; eassumption | eapply N4; eassumption
          | eapply N1; symmetry; eassumption
          | eapply N2; symmetry; eassumption
          | eapply N3; symmetry; eassumption
          | eapply N4; symmetry; eassumption ].
Qed.

(** The first byte of a character below 128 on a little-endian platform is
    the character. *)
Lemma wchar_bytes_ascii (c : Z) :
  big_endian = false -> (1 <= wchar_size)%nat -> 0 <= c < 128 ->
  exists rest : list Z, wchar_bytes c = c :: rest.
Proof.
  intros Hle Hw Hc. unfold wchar_bytes. rewrite Hle.
  destruct wchar_size as [|w]; [lia|]. cbn [seq map].
  eexists. f_equal. cbn [Z.of_nat]. rewrite Z.pow_0_r, Z.div_1_r.
  apply Z.mod_small. lia.
Qed.

(** X7.  On a little-endian platform, the display of a text of one character
    below 128 is the display [getErrorDisplay(int)] gives that character.
    This is the case in which reading bytes and reading characters
    agree. *)
Theorem getErrorDisplay_one_ascii (c : Z) :
  big_endian = false -> (1 <= wchar_size)%nat -> 0 <= c < 128 ->
  getErrorDisplay [c] = getErrorDisplay_int c.
Proof.
  intros Hle Hw Hc.
  destruct (wchar_bytes_ascii c Hle Hw Hc) as (rest & Hbytes).
  unfold getErrorDisplay, c_str_bytes. cbn [app flat_map List.length].
  rewrite Hbytes. cbn [app firstn flat_map].
  unfold char_of_byte.
  replace (128 <=? c) with false by (symmetry; apply Z.leb_gt; lia).
  rewrite andb_false_r, app_nil_r. reflexivity.
Qed.

(** X8.  The display of a text that has no more characters than a [wchar_t] has
    bytes is built from the bytes of its first character alone: the other
    characters do not matter. *)
Theorem getErrorDisplay_first_character (c : Z) (rest rest' : wstring) :
  List.length rest = List.length rest' ->
  (S (List.length rest) <= wchar_size)%nat ->
  getErrorDisplay (c :: rest) = getErrorDisplay (c :: rest').
Proof.
  intros Hlen Hw. unfold getErrorDisplay, c_str_bytes.
  cbn [app flat_map List.length]. rewrite <- Hlen.
  rewrite !firstn_app, wchar_bytes_length.
  replace (S (List.length rest) - wchar_size)%nat with 0%nat by lia.
  reflexivity.
Qed.

(** X9.  Distinct character codes have distinct displays: the text that
    [getErrorDisplay(int)] returns for a character determines the
    character, and so does the quoted text of [getCharErrorDisplay] (the
    case labels of the [switch] are distinct). *)
Theorem error_display_determines_character (c1 c2 : Z) :
  EOF <> 10 -> EOF <> 9 -> EOF <> 13 ->
  (getErrorDisplay_int c1 = getErrorDisplay_int c2 -> c1 = c2) /\
  (getCharErrorDisplay c1 = getCharErrorDisplay c2 -> c1 = c2).
Proof.
  intros E10 E9 E13. split.
  - apply getErrorDisplay_int_injective; assumption.
  - intros H. unfold getCharErrorDisplay in H.
    apply app_inv_head in H. apply app_inv_tail in H.
    exact (getErrorDisplay_int_injective c1 c2 E10 E9 E13 H).
Qed.


(** ** The tokens that [nextToken] returns *)

Lemma run_actions_token (acts : list Action) :
  Forall (fun a => forall t : Token, a <> AEmitToken t) acts ->
  forall l, final (run_actions acts l) (fun l' => _token l' = _token l).
Proof.
  induction 1 as [|a acts Ha _ IH]; intros l; cbn [run_actions].
  - reflexivity.
  - apply final_bind with (Q := fun l' => _token l' = _token l).
    + destruct a; cbn; try reflexivity.
      * unfold popMode. destruct (_modeStack l); reflexivity.
      * exfalso. exact (Ha t eq_refl).
    + auto.
    + intros _ l1 H1. eapply final_mono; [apply IH|].
      intros l2 H2. congruence.
Qed.

Lemma after_match_token (ttype : Z) (l : Lexer) :
  final (after_match ttype l) (fun l' => _token l' = _token l).
Proof.
  unfold after_match. destruct (_input l) as [s|]; [|exact I].
  destruct (LA1 s =? EOF); fields;
    match goal with |- context [if ?c then _ else _] => destruct c end;
    reflexivity.
Qed.

Lemma iteration_token (text : wstring) (l : Lexer) (s : CharStream) :
  engine_never_emits text ->
  _input l = Some s -> data s = text ->
  final (iteration l) (fun l' => _token l' = _token l).
Proof.
  intros Hnever Hin Htext. unfold iteration. fields. rewrite Hin.
  destruct (sim_match s (_mode l) (interp l)) as [n sim' acts ttype|n sim'] eqn:Hm.
  - pose proof (Hnever _ _ _ _ _ _ _ Htext Hm) as Hacts.
    apply final_bind with (Q := fun l' => _token l' = _token l).
    + eapply final_mono; [apply (run_actions_token acts Hacts)|].
      intros l1 H1. exact H1.
    + auto.
    + intros _ l1 H1. eapply final_mono; [apply after_match_token|].
      intros l2 H2. congruence.
  - unfold notifyListeners. fields. cbn [bind]. unfold recover. fields.
    destruct (negb (LA1 (advance n s) =? EOF)); cbn [bind];
      (eapply final_mono; [apply after_match_token|]);
      intros l2 H2; exact H2.
Qed.

Lemma tokenKept_trans (text : wstring) (l1 l2 l3 : Lexer) :
  tokenKept text l1 l2 -> tokenKept text l2 l3 -> tokenKept text l1 l3.
Proof.
  intros H12 H23 s Hs Htext.
  destruct (H12 s Hs Htext) as (T12 & s2 & Hs2 & Ht2).
  destruct (H23 s2 Hs2 Ht2) as (T23 & s3 & Hs3 & Ht3).
  split; [congruence|]. exists s3. auto.
Qed.

Lemma iteration_tokenKept (text : wstring) (l : Lexer) :
  engine_never_emits text ->
  final (iteration l) (tokenKept text l).
Proof.
  intros Hnever.
  destruct (_input l) as [s|] eqn:Hin.
  - destruct (list_eq_dec Z.eq_dec (data s) text) as [Htext|Hne].
    + pose proof (iteration_token text l s Hnever Hin Htext) as Htok.
      pose proof (iteration_frame l) as Hfr.
      destruct (iteration l) as [[] l1|e l1| |]; cbn [final] in *; try exact I;
        intros s0 Hs0 _; rewrite Hin in Hs0; inversion Hs0; subst s0;
        (split; [exact Htok|]);
        destruct Hfr as (_ & Hcur & _);
        destruct (Hcur s Hin) as (s' & Hs' & Hd' & _);
        exists s'; (split; [exact Hs' | congruence]).
    + destruct (iteration l); cbn [final]; try exact I;
        intros s0 Hs0 Ht0; congruence.
  - destruct (iteration l); cbn [final]; try exact I;
      intros s0 Hs0; congruence.
Qed.

Lemma doWhile_tokenKept (text : wstring) (fuel : nat) (l : Lexer) :
  engine_never_emits text ->
  final (doWhile fuel l) (tokenKept text l).
Proof.
  intros Hnever. apply (doWhile_rule (tokenKept text)).
  - apply tokenKept_trans.
  - intros l0. apply iteration_tokenKept. exact Hnever.
Qed.

(** How the [do] loop is left tells the value of [_type]. *)
Lemma doWhile_exit_type (fuel : nat) :
  forall (l l' : Lexer) (ex : LoopExit),
    doWhile fuel l = Ret ex l' ->
    match ex with
    | Restart => _type l' = SKIP
    | Fallthrough => _type l' <> SKIP /\ _type l' <> MORE
    end.
Proof.
  induction fuel as [|fuel IH]; intros l l' ex H; cbn [doWhile] in H;
    [discriminate|].
  destruct (iteration l) as [[] l1|e l1| |]; cbn [bind] in H; try discriminate.
  destruct (Z.eqb_spec (_type l1) SKIP) as [Hs|Hs].
  - inversion H; subst. exact Hs.
  - destruct (Z.eqb_spec (_type l1) MORE) as [Hm|Hm].
    + eapply IH; eassumption.
    + inversion H; subst. auto.
Qed.

Lemma nextToken_loop_token (fuel : nat) :
  forall (l l' : Lexer) (s : CharStream) (tp : TokenPtr),
    engine_never_emits (data s) ->
    _input l = Some s ->
    nextToken_loop fuel l = Ret tp l' ->
    exists (t : Token) (s' : CharStream),
      tp = LiveTok t /\ _token l' = LiveTok t /\
      _input l' = Some s' /\ data s' = data s /\
      numMarkers s' = numMarkers s /\
      tokenAt s s' t /\
      (tk_type t = EOF \/ (tk_type t <> SKIP /\ tk_type t <> MORE)).
Proof.
  induction fuel as [|fuel IH]; intros l l' s tp Hnever Hin H;
    cbn [nextToken_loop] in H; [discriminate|].
  destruct (_hitEOF l).
  - destruct (_token l) as [|prev|] eqn:Htok.
    + rewrite (emitEOF_eq l s Hin) in H by congruence. cbn [bind] in H.
      fields. inversion H; subst. eexists. exists s. fields.
      split; [reflexivity|]. split; [reflexivity|]. split; [exact Hin|].
      split; [reflexivity|]. split; [reflexivity|].
      split; [unfold tokenAt; cbn [create tk_stop tk_start]; repeat split; lia
             | left; reflexivity].
    + rewrite (emitEOF_eq l s Hin) in H by congruence. cbn [bind] in H.
      fields. inversion H; subst. eexists. exists s. fields.
      split; [reflexivity|]. split; [reflexivity|]. split; [exact Hin|].
      split; [reflexivity|]. split; [reflexivity|].
      split; [unfold tokenAt; cbn [create tk_stop tk_start]; repeat split; lia
             | left; reflexivity].
    + unfold emitEOF in H. rewrite Htok in H. discriminate.
  - assert (Hlive : _token l <> FreedTok).
    { intros Hf. unfold startCandidate, delete_token in H. rewrite Hf in H.
      discriminate. }
    rewrite (startCandidate_eq l s Hin Hlive) in H. cbn [bind] in H.
    match type of H with context [doWhile fuel ?l1] => set (l1' := l1) in * end.
    pose proof (doWhile_frame fuel l1') as Hframe.
    pose proof (doWhile_tokenKept (data s) fuel l1' Hnever) as Hkept.
    pose proof (doWhile_exit_type fuel l1') as Hexit.
    destruct (doWhile fuel l1') as [ex l2|e l2| |]; cbn [bind final] in *;
      try discriminate.
    destruct Hframe as (Hstart & Hcur & _).
    destruct (Hcur s Hin) as (s2 & Hs2 & Hd2 & Hm2 & Hp2).
    destruct (Hkept s Hin eq_refl) as (Htok2 & _).
    specialize (Hexit l2 ex eq_refl).
    destruct ex.
    + destruct (IH l2 l' s2 tp ltac:(rewrite Hd2; exact Hnever) Hs2 H)
        as (t & s' & A1 & A2 & A3 & A4 & A5 & (A6 & A7 & A8) & A9).
      exists t, s'. unfold tokenAt, index in *.
      repeat (split; [first [assumption | congruence | lia]|]). exact A9.
    + change (_token l1') with NullTok in Htok2. rewrite Htok2 in H.
      unfold emit, getCharIndex in H. rewrite Hs2 in H. cbn [bind] in H.
      fields. injection Hstart as Hidx _ _.
      change (_tokenStartCharIndex l1') with (Z.of_nat (index s)) in Hidx.
      inversion H; subst tp l'. eexists. exists s2. fields.
      split; [reflexivity|]. split; [reflexivity|]. split; [exact Hs2|].
      split; [exact Hd2|]. split; [exact Hm2|]. split; [|right; exact Hexit].
      unfold tokenAt, index in *. cbn [create tk_stop tk_start].
      rewrite Hidx. repeat split; lia.
Qed.


Lemma nextToken_token (fuel : nat) (l l' : Lexer) (s : CharStream)
  (tp : TokenPtr) :
  engine_never_emits (data s) ->
  _input l = Some s ->
  nextToken fuel l = Ret tp l' ->
  exists (t : Token) (s' : CharStream),
    tp = LiveTok t /\ _token l' = LiveTok t /\
    _input l' = Some s' /\ data s' = data s /\
    tokenAt s s' t /\
    (tk_type t = EOF \/ (tk_type t <> SKIP /\ tk_type t <> MORE)).
Proof.
  intros Hnever Hin H. unfold nextToken in H. rewrite Hin in H.
  cbn [mark] in H.
  match type of H with context [nextToken_loop fuel ?l1] =>
    set (l1' := l1) in * end.
  destruct (nextToken_loop fuel l1') as [tp2 l2|e l2| |] eqn:Hloop;
    cbn [finally] in H; try discriminate.
  - destruct (nextToken_loop_token fuel l1' l2
                {| data := data s; p := p s; numMarkers := S (numMarkers s) |}
                tp2 Hnever eq_refl Hloop)
      as (t & s2 & Htp & Htok & Hs2 & Hd2 & _ & (A1 & A2 & A3) & Hty).
    unfold onExit in H. rewrite Hs2 in H. cbn [bind] in H.
    inversion H; subst. exists t. eexists. fields.
    split; [reflexivity|]. split; [exact Htok|]. split; [reflexivity|].
    split; [exact Hd2|]. split; [|exact Hty].
    unfold tokenAt. cbn in *. auto.
  - destruct (onExit (Z.of_nat (numMarkers s)) l2); discriminate.
Qed.

(** X10.  Without tokens installed by the engine, the token that a call of
    [nextToken] returns ends just before the cursor, and starts between the
    place where the cursor was when the call began and the place where it
    is now: a token never reaches back into text that earlier calls went
    over. *)
Theorem nextToken_token_span (fuel : nat) (l l' : Lexer) (s : CharStream)
  (tp : TokenPtr) :
  engine_never_emits (data s) ->
  _input l = Some s ->
  nextToken fuel l = Ret tp l' ->
  exists (t : Token) (s' : CharStream),
    tp = LiveTok t /\ _token l' = LiveTok t /\ _input l' = Some s' /\
    tk_stop t = Z.of_nat (index s') - 1 /\
    Z.of_nat (index s) <= tk_start t /\
    tk_start t <= tk_stop t + 1.
Proof.
  intros Hnever Hin H.
  destruct (nextToken_token fuel l l' s tp Hnever Hin H)
    as (t & s' & Htp & Htok & Hs' & _ & (A1 & A2 & A3) & _).
  exists t, s'. repeat split; auto. lia.
Qed.

(** X11.  Without tokens installed by the engine, [nextToken] never returns a
    token whose type is one of the control signals [SKIP] and [MORE]
    (which differ from [EOF]). *)
Theorem nextToken_type_is_no_signal (fuel : nat) (l l' : Lexer)
  (s : CharStream) (t : Token) :
  EOF <> SKIP -> EOF <> MORE ->
  engine_never_emits (data s) ->
  _input l = Some s ->
  nextToken fuel l = Ret (LiveTok t) l' ->
  tk_type t <> SKIP /\ tk_type t <> MORE.
Proof.
  intros Hs Hm Hnever Hin H.
  destruct (nextToken_token fuel l l' s (LiveTok t) Hnever Hin H)
    as (t0 & s' & Htp & _ & _ & _ & _ & Hty).
  inversion Htp; subst t0.
  destruct Hty as [Heof | Hty]; [rewrite Heof; auto | exact Hty].
Qed.


(** ** The sequence that [getAllTokens] returns *)



Lemma nextToken_loop_returns_current (fuel : nat) :
  forall (l l' : Lexer) (tp : TokenPtr),
    nextToken_loop fuel l = Ret tp l' -> _token l' = tp.
Proof.
  induction fuel as [|fuel IH]; intros l l' tp H; cbn [nextToken_loop] in H;
    [discriminate|].
  destruct (_hitEOF l).
  - destruct (emitEOF l) as [t1 l1|e l1| |]; cbn [bind] in H; try discriminate.
    inversion H; subst. reflexivity.
  - destruct (startCandidate l) as [[] l1|e l1| |]; cbn [bind] in H;
      try discriminate.
    destruct (doWhile fuel l1) as [ex l2|e l2| |]; cbn [bind] in H;
      try discriminate.
    destruct ex; [eapply IH; eassumption|].
    destruct (match _token l2 with NullTok => emit l2 | t => Ret t l2 end)
      as [t3 l3|e l3| |]; cbn [bind] in H; try discriminate.
    inversion H; subst. reflexivity.
Qed.

Lemma nextToken_returns_current (fuel : nat) (l l' : Lexer) (tp : TokenPtr) :
  nextToken fuel l = Ret tp l' -> _token l' = tp.
Proof.
  unfold nextToken. destruct (_input l) as [s|]; [|discriminate].
  cbn [mark]. intros H.
  match type of H with context [nextToken_loop fuel ?l1] =>
    destruct (nextToken_loop fuel l1) as [tp2 l2|e l2| |] eqn:Hloop
  end; cbn [finally] in H; try discriminate.
  - apply nextToken_loop_returns_current in Hloop.
    unfold onExit in H. destruct (_input l2); cbn [bind] in H;
      [|discriminate]. injection H as <- <-. exact Hloop.
  - destruct (onExit _ l2); discriminate.
Qed.



(** ** Skipped candidates *)



(** ** Noticing the end of the input *)

Lemma iteration_latch (l l' : Lexer) (s' : CharStream) :
  iteration l = Ret tt l' ->
  _input l' = Some s' -> LA1 s' = EOF -> _hitEOF l' = true.
Proof.
  assert (Hafter : forall ttype l3 l4,
            after_match ttype l3 = Ret tt l4 ->
            _input l4 = Some s' -> LA1 s' = EOF -> _hitEOF l4 = true).
  { intros ttype l3 l4 H Hin Heof. unfold after_match in H.
    destruct (_input l3) as [s3|] eqn:Hin3; [|discriminate].
    destruct (after_match_eq ttype l3 s3 Hin3)
      as (l4' & Heq & (G1 & _) & _ & Glatch & _).
    unfold after_match in Heq. rewrite Hin3 in Heq. rewrite Heq in H.
    inversion H; subst l4'. fields. rewrite G1, Hin3 in Hin.
    inversion Hin; subst s3. rewrite Glatch.
    apply Z.eqb_eq in Heof. rewrite Heof. reflexivity. }
  unfold iteration. fields. destruct (_input l) as [s|]; [|discriminate].
  destruct (sim_match s (_mode l) (interp l)) as [n sim' acts ttype|n sim'].
  - destruct (run_actions acts _) as [[] l3|e l3| |]; cbn [bind];
      try discriminate. apply Hafter.
  - unfold notifyListeners. fields. cbn [bind]. unfold recover. fields.
    destruct (negb (LA1 (advance n s) =? EOF)); cbn [bind]; apply Hafter.
Qed.

Lemma doWhile_latch (fuel : nat) :
  forall (l l' : Lexer) (ex : LoopExit) (s' : CharStream),
    doWhile fuel l = Ret ex l' ->
    _input l' = Some s' -> LA1 s' = EOF -> _hitEOF l' = true.
Proof.
  induction fuel as [|fuel IH]; intros l l' ex s' H; cbn [doWhile] in H;
    [discriminate|].
  destruct (iteration l) as [[] l1|e l1| |] eqn:Hit; cbn [bind] in H;
    try discriminate.
  destruct (_type l1 =? SKIP).
  - inversion H; subst. apply (iteration_latch l l' s' Hit).
  - destruct (_type l1 =? MORE).
    + eapply IH; eassumption.
    + inversion H; subst. apply (iteration_latch l l' s' Hit).
Qed.

Lemma nextToken_loop_latch (fuel : nat) :
  forall (l l' : Lexer) (tp : TokenPtr) (s' : CharStream),
    nextToken_loop fuel l = Ret tp l' ->
    _input l' = Some s' -> LA1 s' = EOF -> _hitEOF l' = true.
Proof.
  induction fuel as [|fuel IH]; intros l l' tp s' H; cbn [nextToken_loop] in H;
    [discriminate|].
  destruct (_hitEOF l) eqn:Hlatch.
  - unfold emitEOF in H.
    destruct (_token l); cbn [bind] in H; try discriminate;
      (destruct (_input l) eqn:Hi; [|discriminate]);
      inversion H; subst; fields; auto.
  - destruct (startCandidate l) as [[] l1|e l1| |]; cbn [bind] in H;
      try discriminate.
    destruct (doWhile fuel l1) as [ex l2|e l2| |] eqn:Hdo; cbn [bind] in H;
      try discriminate.
    destruct ex; [eapply IH; eassumption|].
    destruct (_token l2).
    + unfold emit, getCharIndex in H.
      destruct (_input l2) eqn:Hi2; [|discriminate].
      cbn [bind] in H. injection H as _ <-. fields.
      exact (doWhile_latch fuel l1 l2 Fallthrough s' Hdo).
    + cbn [bind] in H. injection H as _ <-.
      exact (doWhile_latch fuel l1 l2 Fallthrough s' Hdo).
    + cbn [bind] in H. injection H as _ <-.
      exact (doWhile_latch fuel l1 l2 Fallthrough s' Hdo).
Qed.

(** X15.  When a call of [nextToken()] returns a token and leaves the cursor at
    the end of the input ([LA(1)] is [EOF]), the latch is set; so the next
    call, with any fuel, returns the end-of-input token without calling the
    engine. *)
Theorem nextToken_notices_end (fuel : nat) (l l' : Lexer) (t : Token)
  (s' : CharStream) :
  nextToken fuel l = Ret (LiveTok t) l' ->
  _input l' = Some s' ->
  LA1 s' = EOF ->
  _hitEOF l' = true /\
  forall fuel' : nat, exists l'' : Lexer,
    nextToken (S fuel') l' = Ret (LiveTok (eofToken l' s')) l'' /\
    calls l'' = calls l' ++ [CallMark (fst (mark s')); CallRelease (fst (mark s'))].
Proof.
  intros H Hin Heof.
  pose proof (nextToken_returns_current fuel l l' (LiveTok t) H) as Htok.
  assert (Hlatch : _hitEOF l' = true).
  { unfold nextToken in H. destruct (_input l) as [s|]; [|discriminate].
    cbn [mark] in H.
    match type of H with context [nextToken_loop fuel ?l1] =>
      destruct (nextToken_loop fuel l1) as [tp2 l2|e l2| |] eqn:Hloop
    end; cbn [finally] in H; try discriminate.
    - unfold onExit in H. destruct (_input l2) as [s2|] eqn:Hs2;
        cbn [bind] in H; [|discriminate].
      injection H as _ <-. fields. inversion Hin; subst s'.
      apply (nextToken_loop_latch fuel _ l2 tp2 s2 Hloop Hs2).
      rewrite <- Heof. symmetry. apply LA1_same; reflexivity.
    - destruct (onExit _ l2); discriminate. }
  split; [exact Hlatch|]. intros fuel'.
  destruct (nextToken_latched fuel' l' s' Hlatch Hin)
    as (l'' & Hcall & _ & _ & _ & _ & Hcalls).
  { rewrite Htok. discriminate. }
  exists l''. split; assumption.
Qed.

(** ** One match, one token *)

Lemma run_actions_fields (acts : list Action) :
  forall l l', run_actions acts l = Ret tt l' ->
    _type l' = type_after acts (_type l) /\
    _channel l' = channel_after acts (_channel l) /\
    _text l' = text_after acts (_text l).
Proof.
  induction acts as [|a acts IH]; intros l l' H; cbn [run_actions] in H.
  - inversion H. auto.
  - destruct a; cbn [run_action bind] in H;
      try (apply IH in H; exact H).
    unfold popMode in H. destruct (_modeStack l); cbn [bind] in H;
      [discriminate|]. apply IH in H. exact H.
Qed.

(** X16.  A candidate that one match settles.  From a state with the latch clear,
    when the engine accepts [n] characters and neither skips nor continues,
    with actions that do not throw and install no token, [nextToken]
    returns the token [emit()] builds: its type is what the actions or else
    the engine chose, its text and channel are what the actions set (empty
    and default otherwise), it spans the [n] characters from the cursor, and
    its line and column are those the engine had before the match. *)
Theorem single_match_token (fuel : nat) (l : Lexer) (s : CharStream)
  (n : nat) (sim' : Sim) (acts : list Action) (ttype : Z) :
  _hitEOF l = false ->
  _input l = Some s ->
  _token l <> FreedTok ->
  sim_match s (_mode l) (interp l) = Accept n sim' acts ttype ->
  (forall l0 : Lexer, exists l1 : Lexer, run_actions acts l0 = Ret tt l1) ->
  Forall (fun a => forall t : Token, a <> AEmitToken t) acts ->
  outcomeType acts ttype <> SKIP ->
  outcomeType acts ttype <> MORE ->
  exists l' : Lexer,
    nextToken_loop (S (S fuel)) l =
      Ret (LiveTok (create (outcomeType acts ttype)
                      (text_after acts [])
                      (channel_after acts DEFAULT_CHANNEL)
                      (Z.of_nat (index s))
                      (Z.of_nat (index s + n) - 1)
                      (getLine l) (getCharPositionInLine l))) l' /\
    _input l' = Some (advance n s).
Proof.
  intros Hlatch Hin Hlive Hm Hsafe Hnoemit Hskip Hmore.
  cbn [nextToken_loop]. rewrite Hlatch.
  rewrite (startCandidate_eq l s Hin Hlive). cbn [bind].
  match goal with |- context [doWhile (S fuel) ?l1] => set (l1' := l1) end.
  cbn [doWhile]. unfold iteration. fields.
  change (_input l1') with (_input l). rewrite Hin.
  change (_mode l1') with (_mode l). change (interp l1') with (interp l).
  rewrite Hm.
  match goal with |- context [run_actions acts ?l2] => set (l2' := l2) end.
  destruct (Hsafe l2') as (l3 & Hacts). rewrite Hacts. cbn [bind].
  pose proof (run_actions_frame acts l2') as Hfr. rewrite Hacts in Hfr.
  destruct Hfr as (F1 & F2 & _). cbn [final] in *.
  pose proof (run_actions_fields acts l2' l3 Hacts) as (Hty & Hch & Htx).
  pose proof (run_actions_token acts Hnoemit l2') as Htok. rewrite Hacts in Htok.
  cbn [final] in Htok.
  assert (Hin3 : _input l3 = Some (advance n s)) by (rewrite F1; reflexivity).
  destruct (after_match_eq ttype l3 (advance n s) Hin3)
    as (l4 & Hafter & (G1 & G2 & _) & Gtok & _ & Gty).
  rewrite Hafter. cbn [bind].
  assert (Hout : _type l4 = outcomeType acts ttype).
  { rewrite Gty, Hty. reflexivity. }
  rewrite Hout.
  apply Z.eqb_neq in Hskip, Hmore. rewrite Hskip, Hmore. cbn [bind].
  rewrite Gtok, Htok. change (_token l2') with NullTok. cbn iota.
  unfold emit, getCharIndex. fields.
  assert (Hin4 : _input l4 = Some (advance n s)) by (rewrite G1; exact Hin3).
  rewrite Hin4. cbn [bind].
  assert (Hch4 : _channel l4 = _channel l3 /\ _text l4 = _text l3).
  { revert Hafter. unfold after_match. rewrite Hin3.
    destruct (LA1 (advance n s) =? EOF); fields;
      match goal with |- context [if ?c then _ else _] => destruct c end;
      intros Heq; inversion Heq; subst l4; auto. }
  destruct Hch4 as (Hch4 & Htx4).
  unfold tokenStart in *. fields.
  injection G2 as I1 I2 I3. injection F2 as J1 J2 J3.
  assert (Htoken :
    create (_type l4) (_text l4) (_channel l4) (_tokenStartCharIndex l4)
           (Z.of_nat (index (advance n s)) - 1) (_tokenStartLine l4)
           (_tokenStartCharPositionInLine l4)
    = create (outcomeType acts ttype) (text_after acts [])
             (channel_after acts DEFAULT_CHANNEL) (Z.of_nat (index s))
             (Z.of_nat (index s + n) - 1) (getLine l)
             (getCharPositionInLine l)).
  { rewrite Hout, Hch4, Htx4, Hch, Htx, I1, I2, I3, J1, J2, J3.
    subst l2' l1'. fields. reflexivity. }
  rewrite Htoken. eexists. split; [reflexivity|]. fields. exact Hin4.
Qed.

End Properties.

(** * The driver at work on the small grammar *)

Import Demo.


Lemma noViableAlt_is_recovered_witness :
  exists l' : Lexer,
    doWhile 1 (lexer (L "#a")) = Ret Restart l' /\
    _type l' = SKIP /\ _token l' = NullTok /\
    _input l' = Some (consume (stream (L "#a"))).
Proof.
  assert (Hm : sim_match (stream (L "#a")) (_mode (lexer (L "#a")))
                 (interp (lexer (L "#a")))
               = NoViableAlt 0 {| line := 1; charPositionInLine := 0 |})
    by (vm_compute; reflexivity).
  destruct (noViableAlt_is_recovered 0 (lexer (L "#a")) (stream (L "#a")) 0
              {| line := 1; charPositionInLine := 0 |} eq_refl Hm)
    as (l' & Hdo & Hty & Htok & (_ & Hmove) & _).
  exists l'. repeat split; try assumption.
  apply Hmove. vm_compute. discriminate.
Defined.


Lemma nextToken_after_eof_witness :
  exists l' : Lexer,
    nextToken_again 2 1 (set_hitEOF true (lexer (L "")))
      = Ret (LiveTok (create (-1) [] 0 0 (-1) 1 0)) l' /\
    calls l' = [CallMark 0; CallRelease 0; CallMark 0; CallRelease 0;
                CallMark 0; CallRelease 0].
Proof.
  destruct (nextToken_after_eof 2 0 (set_hitEOF true (lexer (L "")))
              (stream (L "")) eq_refl eq_refl)
    as (l' & Hcalls & _ & Htrace & _).
  - discriminate.
  - exists l'. split; assumption.
Defined.

Lemma nextToken_mark_release_witness :
  nextToken 5 (lexer (L ")"))
    = Throw EmptyStackException (stateAfter (nextToken 5 (lexer (L ")"))) (lexer (L ")")))
  /\ exists evs : list Call,
       calls (stateAfter (nextToken 5 (lexer (L ")"))) (lexer (L ")")))
         = [CallMark 0] ++ evs ++ [CallRelease 0] /\
       Forall quiet evs.
Proof.
  split; [vm_compute; reflexivity|].
  destruct (nextToken_mark_release 5 (lexer (L ")"))
              (stateAfter (nextToken 5 (lexer (L ")"))) (lexer (L ")")))
              (stream (L ")")) eq_refl)
    as (marker & evs & s' & Hm & Hcalls & Hquiet & _).
  - vm_compute. reflexivity.
  - exists evs. rewrite Hm in Hcalls. split; assumption.
Defined.

(** The quote and the letter make one token, which starts at the quote. *)
Lemma more_keeps_token_start_witness :
  exists (t : Token) (l3 : Lexer),
    nextToken_loop 3 quoted = Ret (LiveTok t) l3 /\
    tk_start t = 0 /\ tk_line t = 1 /\ tk_column t = 0.
Proof.
  destruct (more_keeps_token_start 2 quoted
              (stateAfter (startCandidate quoted) quoted)
              (stateAfter (doWhile 2 (stateAfter (startCandidate quoted) quoted)) quoted)
              (stream [34; 97]) eq_refl)
    as (_ & _ & _ & t & l3 & _ & Hloop & Hstart & Hline & Hcol).
  - vm_compute. reflexivity.
  - vm_compute. reflexivity.
  - exists t, l3. repeat split; try assumption.
    apply Hloop; vm_compute; reflexivity.
Defined.

Lemma pushMode_popMode_restores_witness :
  popMode (pushMode 3 (lexer (L "ab"))) = Ret 0 (lexer (L "ab")) /\
  popMode (lexer (L "ab")) = Throw EmptyStackException (lexer (L "ab")).
Proof.
  split.
  - exact (proj1 (pushMode_popMode_restores 3 (lexer (L "ab")))).
  - exact (proj2 (pushMode_popMode_restores 3 (lexer (L "ab")))
             (lexer (L "ab")) eq_refl).
Defined.

Lemma reset_postcondition_witness :
  exists l' : Lexer,
    reset (stateAfter (nextToken 3 (lexer (L "ab"))) (lexer (L "ab")))
      = Ret tt l' /\
    _input l' = Some (stream (L "ab")) /\ _token l' = FreedTok /\
    _type l' = 0 /\ _hitEOF l' = false /\ _modeStack l' = [].
Proof.
  destruct (reset_postcondition
              (stateAfter (nextToken 3 (lexer (L "ab"))) (lexer (L "ab"))))
    as (l' & Hreset & Hin & _ & _ & Hty & _ & _ & _ & _ & _ & Hlatch & _ & Hstack & _).
  - vm_compute. discriminate.
  - exists l'. repeat split; try assumption.
    vm_compute in Hreset. inversion Hreset. reflexivity.
Defined.


Lemma getErrorDisplay_reads_bytes_witness :
  flat_map getErrorDisplay_int [97; 10] = L "97\n" /\
  getErrorDisplay [97; 10] <> L "97\n".
Proof.
  apply getErrorDisplay_reads_bytes.
  - vm_compute. reflexivity.
  - vm_compute. lia.
Defined.

Lemma setText_empty_is_no_override_witness :
  getText (setText (L "x") (lexer (L "ab"))) = L "x" /\
  getText (setText [] (lexer (L "ab"))) = [] /\
  setText [] (lexer (L "ab")) = lexer (L "ab").
Proof.
  destruct (setText_empty_is_no_override (lexer (L "ab")))
    as (Hset & Hempty & Hnone).
  split; [apply Hset; discriminate|].
  split; [exact Hempty | exact (proj1 (Hnone eq_refl))].
Defined.

(** The four ways out of [nextToken]: a token is returned; a skipped
    candidate is followed by a second one in the same call; the latch is set
    and the end-of-input token is returned; an exception leaves the call.
    Each time the recorded calls start with the [mark] and end with the
    [release]. *)
Example nextToken_exit_paths :
  calls (stateAfter (nextToken 3 (lexer (L "a"))) (lexer (L "a")))
    = [CallMark 0; CallMatch 0; CallRelease 0] /\
  calls (stateAfter (nextToken 3 (lexer (L " a"))) (lexer (L " a")))
    = [CallMark 0; CallMatch 0; CallMatch 0; CallRelease 0] /\
  calls (stateAfter (nextToken 3 (set_hitEOF true (lexer (L "a")))) (lexer (L "a")))
    = [CallMark 0; CallRelease 0] /\
  calls (stateAfter (nextToken 3 (lexer (L ")"))) (lexer (L "a")))
    = [CallMark 0; CallMatch 0; CallRelease 0] /\
  nextToken 3 (InitializeInstanceFields None {| line := 1; charPositionInLine := 0 |})
    = Throw IllegalStateException
        (InitializeInstanceFields None {| line := 1; charPositionInLine := 0 |}).
Proof. vm_compute. repeat split; reflexivity. Qed.

(** One illegal character between two letters: a token, one reported
    error, a token, and the end of the input. *)
Example one_illegal_character :
  exists l' : Lexer,
    getAllTokens 5 5 (lexer (L "a#b"))
      = Ret [create 1 [] 0 0 0 1 0; create 1 [] 0 2 2 1 2] l' /\
    filter (fun c => match c with CallSyntaxError _ _ _ => true | _ => false end)
           (calls l')
      = [CallSyntaxError 1 1 (L "token recognition error at: '35'")].
Proof. eexists. vm_compute. split; reflexivity. Qed.

(** On the little-endian platform with a four-byte [wchar_t] the letter
    [a] and a newline are displayed as the code 97 and a zero. *)
Example getErrorDisplay_a_newline :
  getErrorDisplay [97; 10] = L "970".
Proof. vm_compute. reflexivity. Qed.


(** The engine of the small grammar installs no token of its own. *)
Lemma demo_never_emits (text : wstring) : engine_never_emits text.
Proof.
  intros s m sim n sim' acts ttype _ Hm.
  unfold sim_match, engine in Hm.
  repeat match type of Hm with
         | (if ?c then _ else _) = _ => destruct c
         end;
    inversion Hm; subst; repeat constructor; discriminate.
Qed.

Lemma no_cursor_is_illegal_state_witness :
  getAllTokens 3 3 (InitializeInstanceFields None {| line := 1; charPositionInLine := 0 |})
    = Throw IllegalStateException
        (InitializeInstanceFields None {| line := 1; charPositionInLine := 0 |}).
Proof.
  exact (proj2 (no_cursor_is_illegal_state 3 3
                  (InitializeInstanceFields None
                     {| line := 1; charPositionInLine := 0 |}) eq_refl)).
Defined.

Lemma reset_leaves_token_dangling_witness :
  exists l' : Lexer,
    reset lexer_after_token = Ret tt l' /\
    nextToken 5 l' = Undefined.
Proof.
  destruct (reset_leaves_token_dangling lexer_after_token (stream (L "ab c"))
              (create 1 [] 0 4 6 1 4) eq_refl eq_refl)
    as (l' & Hreset & _ & _ & Hnext & _).
  exists l'. split; [exact Hreset | exact (Hnext 4%nat)].
Defined.

Lemma setInputStream_attaches_witness :
  (exists l' : Lexer,
     setInputStream (Some (stream (L "ab")))
       (InitializeInstanceFields None {| line := 1; charPositionInLine := 0 |})
       = Ret tt l' /\
     getInputStream l' = Some (stream (L "ab"))) /\
  setInputStream (Some (stream (L "ab"))) (lexer (L "c")) = Undefined.
Proof.
  split.
  - destruct (proj1 (setInputStream_attaches (stream (L "ab"))
                (InitializeInstanceFields None
                   {| line := 1; charPositionInLine := 0 |})
                ltac:(discriminate)) eq_refl)
      as (l' & Hset & Hin & _).
    exists l'. split; assumption.
  - apply (proj2 (setInputStream_attaches (stream (L "ab")) (lexer (L "c"))
                    ltac:(discriminate))).
    discriminate.
Defined.

Lemma getAllTokens_after_eof_witness :
  exists l' : Lexer,
    getAllTokens 0 1 (set_hitEOF true (lexer (L "ab"))) = Ret [] l'.
Proof.
  destruct (getAllTokens_after_eof 0 0 (set_hitEOF true (lexer (L "ab")))
              (stream (L "ab")) eq_refl eq_refl)
    as (l' & Hall & _).
  - discriminate.
  - exists l'. exact Hall.
Defined.

Lemma error_display_determines_character_witness :
  getErrorDisplay_int 97 <> getErrorDisplay_int 98 /\
  getCharErrorDisplay 10 <> getCharErrorDisplay (-1).
Proof.
  assert (H10 : EOF <> 10) by (vm_compute; discriminate).
  assert (H9 : EOF <> 9) by (vm_compute; discriminate).
  assert (H13 : EOF <> 13) by (vm_compute; discriminate).
  split; intros H.
  - apply (proj1 (error_display_determines_character 97 98 H10 H9 H13)) in H.
    discriminate.
  - apply (proj2 (error_display_determines_character 10 (-1) H10 H9 H13)) in H.
    discriminate.
Defined.

Lemma getErrorDisplay_one_ascii_witness :
  getErrorDisplay [35] = L "35".
Proof.
  rewrite (getErrorDisplay_one_ascii 35).
  - vm_compute. reflexivity.
  - reflexivity.
  - vm_compute. lia.
  - lia.
Defined.

Lemma getErrorDisplay_first_character_witness :
  getErrorDisplay [97; 10] = getErrorDisplay [97; 98].
Proof.
  apply (getErrorDisplay_first_character 97 [10] [98]).
  - reflexivity.
  - vm_compute. lia.
Defined.

Lemma nextToken_token_span_witness :
  exists (t : Token) (s' : CharStream),
    nextToken 3 (lexer (L " ab")) = Ret (LiveTok t) (stateAfter (nextToken 3 (lexer (L " ab"))) (lexer (L " ab"))) /\
    tk_stop t = Z.of_nat (index s') - 1 /\ 0 <= tk_start t.
Proof.
  destruct (nextToken_token_span 3 (lexer (L " ab"))
              (stateAfter (nextToken 3 (lexer (L " ab"))) (lexer (L " ab")))
              (stream (L " ab"))
              (LiveTok (create 1 [] 0 1 1 1 1))
              (demo_never_emits _) eq_refl)
    as (t & s' & Htp & _ & _ & Hstop & Hstart & _).
  - vm_compute. reflexivity.
  - exists t, s'. split; [|split; [exact Hstop | exact Hstart]].
    rewrite <- Htp. vm_compute. reflexivity.
Defined.

Lemma nextToken_type_is_no_signal_witness :
  tk_type (create 1 [] 0 1 1 1 1) <> SKIP /\
  tk_type (create 1 [] 0 1 1 1 1) <> MORE.
Proof.
  apply (nextToken_type_is_no_signal 3 (lexer (L " ab"))
           (stateAfter (nextToken 3 (lexer (L " ab"))) (lexer (L " ab")))
           (stream (L " ab")) (create 1 [] 0 1 1 1 1)).
  - vm_compute. discriminate.
  - vm_compute. discriminate.
  - apply demo_never_emits.
  - reflexivity.
  - vm_compute. reflexivity.
Defined.




Lemma nextToken_notices_end_witness :
  _hitEOF (stateAfter (nextToken 3 (lexer (L "a"))) (lexer (L "a"))) = true.
Proof.
  apply (nextToken_notices_end 3 (lexer (L "a"))
           (stateAfter (nextToken 3 (lexer (L "a"))) (lexer (L "a")))
           (create 1 [] 0 0 0 1 0)
           {| data := L "a"; p := 1; numMarkers := 0 |}).
  - vm_compute. reflexivity.
  - vm_compute. reflexivity.
  - vm_compute. reflexivity.
Defined.

Lemma single_match_token_witness :
  exists l' : Lexer,
    nextToken_loop 2 (lexer (L "ab")) = Ret (LiveTok (create 1 [] 0 0 0 1 0)) l'.
Proof.
  destruct (single_match_token 0 (lexer (L "ab")) (stream (L "ab")) 1
              {| line := 1; charPositionInLine := 1 |} [] 1
              eq_refl eq_refl)
    as (l' & Hloop & _).
  - discriminate.
  - vm_compute. reflexivity.
  - intros l0. exists l0. reflexivity.
  - constructor.
  - vm_compute. discriminate.
  - vm_compute. discriminate.
  - exists l'. exact Hloop.
Defined.
